(** * Broken-link checker utilities (link_utils.ts)

    A shallow embedding of the pure and array-manipulating parts of
    [packages/synthetics-sdk-broken-links/src/link_utils.ts]:

    - [checkStatusPassing]    (status evaluation),
    - [isHTTPResponse]        (run-time shape check),
    - [shouldGoToBlankPage]   (fragment-navigation test),
    - [parseFollowedLinks]    (aggregation of per-link results),
    - [shuffleAndTruncate]    (selection of the links to follow).

    JavaScript numbers that the code only uses as integers (status codes,
    counters, limits, indices) are [Z]; optional fields ([T | undefined])
    are [option T]; strings are [string] (sequences of 8-bit characters,
    which covers URLs); arrays are [list]s, and, where aliasing matters,
    references into a store of arrays.  The results of [Math.random] and the
    order [Array.prototype.sort] produces with an inconsistent comparator
    are inputs of the model. *)

From Stdlib Require Import ZArith QArith.
From stdpp Require Import gmap strings list.

Local Open Scope Z_scope.

(** ** JavaScript helpers shared by the functions below *)

(** [x ?? d] on an optional number. *)
Definition nullish {A} (x : option A) (d : A) : A :=
  match x with Some v => v | None => d end.

Infix "??" := nullish (at level 45, left associativity).

(** Truthiness of an optional boolean field: [undefined] is falsy. *)
Definition truthy (b : option bool) : bool :=
  match b with Some true => true | _ => false end.

(** ** StatusEvaluator: [checkStatusPassing] *)

Module StatusEvaluator.

(** Modelled from the spec: the enum [ResponseStatusCode_StatusClass] is
    imported from the API package and its declaration is not part of this
    source file.  The five members the code names are kept by name; every
    other member of the enum (the switch sends all of them to [default]) is
    [STATUS_CLASS_OTHER]. *)
Inductive ResponseStatusCode_StatusClass : Set :=
  | STATUS_CLASS_1XX
  | STATUS_CLASS_2XX
  | STATUS_CLASS_3XX
  | STATUS_CLASS_4XX
  | STATUS_CLASS_5XX
  | STATUS_CLASS_OTHER.

(** [ResponseStatusCode]: both members are optional in the generated type. *)
Record ResponseStatusCode : Set := {
  status_value : option Z;
  status_class : option ResponseStatusCode_StatusClass
}.

(** [checkStatusPassing(expected, actual)].  [expected?.f] is [None] when
    [expected] itself is absent; [typeof v === 'number'] holds exactly
    when the field is present. *)
Definition checkStatusPassing
    (expected : option ResponseStatusCode) (actual : Z) : bool :=
  match expected ≫= status_value with
  | Some v => v =? actual
  | None =>
      match expected ≫= status_class with
      | Some STATUS_CLASS_1XX => (actual >=? 100) && (actual <=? 199)
      | Some STATUS_CLASS_2XX => (actual >=? 200) && (actual <=? 299)
      | Some STATUS_CLASS_3XX => (actual >=? 300) && (actual <=? 399)
      | Some STATUS_CLASS_4XX => (actual >=? 400) && (actual <=? 499)
      | Some STATUS_CLASS_5XX => (actual >=? 500) && (actual <=? 599)
      | _ => false
      end
  end.

(** The reference definition, written after the specification: a recognised
    class is one of the numbers 1..5. *)
Definition class_number (c : ResponseStatusCode_StatusClass) : option Z :=
  match c with
  | STATUS_CLASS_1XX => Some 1
  | STATUS_CLASS_2XX => Some 2
  | STATUS_CLASS_3XX => Some 3
  | STATUS_CLASS_4XX => Some 4
  | STATUS_CLASS_5XX => Some 5
  | STATUS_CLASS_OTHER => None
  end.

Definition isPassing_reference
    (expected : option ResponseStatusCode) (actual : Z) : bool :=
  match expected ≫= status_value with
  | Some v => bool_decide (actual = v)
  | None =>
      match (expected ≫= status_class) ≫= class_number with
      | Some c => bool_decide (100 * c <= actual <= 100 * c + 99)
      | None => false
      end
  end.

End StatusEvaluator.

(** ** Response shape check: [isHTTPResponse] *)

Module ResponseShape.

(** An object, as far as the [in] operator can see it: the names of its own
    properties and its prototype (itself an object, or [null]). *)
#[warnings="-register-all"]
Inductive JsObject : Type :=
  | mkObject (own : gset string) (proto : option JsObject).

(** The values of the parameter: [null], an object ([HTTPResponse] and
    [Error] are objects), and, for callers that ignore the declared type,
    [undefined] and the primitives.  Callable objects, whose [typeof] is
    ['function'], are not values of the declared type and are left out. *)
Inductive JsValue : Type :=
  | JsNull
  | JsUndefined
  | JsBoolean (b : bool)
  | JsNumber (n : Z)
  | JsString (s : string)
  | JsObj (o : JsObject).

Definition typeof (v : JsValue) : string :=
  match v with
  | JsNull => "object"
  | JsUndefined => "undefined"
  | JsBoolean _ => "boolean"
  | JsNumber _ => "number"
  | JsString _ => "string"
  | JsObj _ => "object"
  end.

(** [HasProperty]: own properties first, then along the prototype chain. *)
Fixpoint has_property (o : JsObject) (k : string) : bool :=
  match o with
  | mkObject own proto =>
      bool_decide (k ∈ own) ||
      match proto with
      | Some p => has_property p k
      | None => false
      end
  end.

(** "The object possesses the property", as a relation: the property is
    the object's own, or one of its prototype's. *)
Inductive HasProperty (k : string) : JsObject → Prop :=
  | HasProperty_own own proto :
      k ∈ own → HasProperty k (mkObject own proto)
  | HasProperty_inherited own p :
      HasProperty k p → HasProperty k (mkObject own (Some p)).

(** [k in v]: a [TypeError] ([None]) when [v] is not an object. *)
Definition js_in (k : string) (v : JsValue) : option bool :=
  match v with
  | JsObj o => Some (has_property o k)
  | _ => None
  end.

Definition strict_not_null (v : JsValue) : bool :=
  match v with JsNull => false | _ => true end.

(** [response !== null && typeof response === 'object' && 'status' in response],
    with the short-circuit evaluation of [&&] written out. *)
Definition isHTTPResponse (response : JsValue) : option bool :=
  if strict_not_null response then
    if bool_decide (typeof response = "object") then js_in "status" response
    else Some false
  else Some false.

End ResponseShape.

(** ** Fragment-navigation test: [shouldGoToBlankPage] *)

Module Navigation.

(** [s.startsWith(needle)] — used to spell out [includes] and [indexOf]. *)
Fixpoint startsWith (s needle : string) : bool :=
  match needle, s with
  | EmptyString, _ => true
  | String _ _, EmptyString => false
  | String c needle', String d s' =>
      if Ascii.eqb c d then startsWith s' needle' else false
  end.

(** [s.includes(needle)]: [needle] occurs at some position of [s]. *)
Fixpoint includes (s needle : string) : bool :=
  startsWith s needle ||
  match s with
  | EmptyString => false
  | String _ s' => includes s' needle
  end.

(** [s.indexOf(needle)]: the first position of [needle] in [s], [-1] when
    there is none. *)
Fixpoint indexOf (s needle : string) : Z :=
  if startsWith s needle then 0
  else match s with
       | EmptyString => -1
       | String _ s' =>
           let i := indexOf s' needle in
           if i <? 0 then -1 else 1 + i
       end.

Fixpoint string_take (n : nat) (s : string) : string :=
  match n, s with
  | S n', String c s' => String c (string_take n' s')
  | _, _ => EmptyString
  end.

Fixpoint string_drop (n : nat) (s : string) : string :=
  match n, s with
  | S n', String _ s' => string_drop n' s'
  | _, _ => s
  end.

(** [s.substring(start, end)]: both indices are clamped to [0, length] and
    swapped when [start > end]. *)
Definition substring (s : string) (start end_ : Z) : string :=
  let len := Z.of_nat (String.length s) in
  let finalStart := Z.min (Z.max start 0) len in
  let finalEnd := Z.min (Z.max end_ 0) len in
  let from := Z.min finalStart finalEnd in
  let to := Z.max finalStart finalEnd in
  string_take (Z.to_nat (to - from)) (string_drop (Z.to_nat from) s).

Definition shouldGoToBlankPage (current_url target_url : string) : bool :=
  includes target_url "#" &&
  includes current_url (substring target_url 0 (indexOf target_url "#")).

(** Specification vocabulary. [occurs_in needle s]: [needle] is a
    contiguous part of [s]. *)
Definition occurs_in (needle s : string) : Prop :=
  ∃ pre post : string, s = pre +:+ needle +:+ post.

(** The character ['#'] (code 35). *)
Definition hash : Ascii.ascii := Eval cbv in Ascii.ascii_of_nat 35.

(** The base of a URL: everything before its first ['#'] (the whole URL
    when it has no fragment). *)
Fixpoint base_url (u : string) : string :=
  match u with
  | EmptyString => EmptyString
  | String c u' =>
      if Ascii.eqb hash c then EmptyString else String c (base_url u')
  end.

(** The claim's reading of "differ only by a fragment identifier on the
    same base URL": two different URLs with one and the same base. *)
Definition differ_only_by_fragment (current_url target_url : string) : Prop :=
  base_url current_url = base_url target_url ∧ current_url ≠ target_url.

End Navigation.

(** ** ResultAggregator: [parseFollowedLinks], [createSyntheticResult] *)

Module Aggregation.

(** Modelled from the spec: [BrokenLinksResultV1_SyntheticLinkResult] is
    declared in the API package.  The members the aggregation reads
    ([is_origin], [link_passed], [status_code]) are kept, with [target_uri]
    standing for the identity and timing members, which it only carries
    along.  Every member is optional; [{}] is the object without any. *)
Record SyntheticLinkResult : Set := {
  link_passed : option bool;
  status_code : option Z;
  is_origin : option bool;
  target_uri : option string
}.

Definition empty_link_result : SyntheticLinkResult :=
  {| link_passed := None; status_code := None;
     is_origin := None; target_uri := None |}.

(** Modelled from the spec: the checker options are declared in the API
    package; this file only passes the object along.  Of the configuration
    the specification lists, the limit and the retry count are kept; [{}]
    has no member. *)
Record BrokenLinkCheckerOptions : Set := {
  link_limit : option Z;
  max_retries : option Z
}.

Definition empty_options : BrokenLinkCheckerOptions :=
  {| link_limit := None; max_retries := None |}.

(** [BrokenLinksResultV1]; counters are [number | undefined] in the
    generated type, which is why the code reads them through [?? 0]. *)
Record BrokenLinksResultV1 : Set := {
  link_count : option Z;
  passing_link_count : option Z;
  failing_link_count : option Z;
  unreachable_count : option Z;
  status_2xx_count : option Z;
  status_3xx_count : option Z;
  status_4xx_count : option Z;
  status_5xx_count : option Z;
  options : BrokenLinkCheckerOptions;
  origin_link_result : SyntheticLinkResult;
  followed_link_results : list SyntheticLinkResult
}.

(** Field assignments [r.f = v]. *)
Definition set_link_count v r :=
  {| link_count := v; passing_link_count := passing_link_count r;
     failing_link_count := failing_link_count r;
     unreachable_count := unreachable_count r;
     status_2xx_count := status_2xx_count r;
     status_3xx_count := status_3xx_count r;
     status_4xx_count := status_4xx_count r;
     status_5xx_count := status_5xx_count r; options := options r;
     origin_link_result := origin_link_result r;
     followed_link_results := followed_link_results r |}.

Definition set_passing_link_count v r :=
  {| link_count := link_count r; passing_link_count := v;
     failing_link_count := failing_link_count r;
     unreachable_count := unreachable_count r;
     status_2xx_count := status_2xx_count r;
     status_3xx_count := status_3xx_count r;
     status_4xx_count := status_4xx_count r;
     status_5xx_count := status_5xx_count r; options := options r;
     origin_link_result := origin_link_result r;
     followed_link_results := followed_link_results r |}.

Definition set_failing_link_count v r :=
  {| link_count := link_count r; passing_link_count := passing_link_count r;
     failing_link_count := v;
     unreachable_count := unreachable_count r;
     status_2xx_count := status_2xx_count r;
     status_3xx_count := status_3xx_count r;
     status_4xx_count := status_4xx_count r;
     status_5xx_count := status_5xx_count r; options := options r;
     origin_link_result := origin_link_result r;
     followed_link_results := followed_link_results r |}.

Definition set_unreachable_count v r :=
  {| link_count := link_count r; passing_link_count := passing_link_count r;
     failing_link_count := failing_link_count r;
     unreachable_count := v;
     status_2xx_count := status_2xx_count r;
     status_3xx_count := status_3xx_count r;
     status_4xx_count := status_4xx_count r;
     status_5xx_count := status_5xx_count r; options := options r;
     origin_link_result := origin_link_result r;
     followed_link_results := followed_link_results r |}.

Definition set_status_2xx_count v r :=
  {| link_count := link_count r; passing_link_count := passing_link_count r;
     failing_link_count := failing_link_count r;
     unreachable_count := unreachable_count r;
     status_2xx_count := v;
     status_3xx_count := status_3xx_count r;
     status_4xx_count := status_4xx_count r;
     status_5xx_count := status_5xx_count r; options := options r;
     origin_link_result := origin_link_result r;
     followed_link_results := followed_link_results r |}.

Definition set_status_3xx_count v r :=
  {| link_count := link_count r; passing_link_count := passing_link_count r;
     failing_link_count := failing_link_count r;
     unreachable_count := unreachable_count r;
     status_2xx_count := status_2xx_count r;
     status_3xx_count := v;
     status_4xx_count := status_4xx_count r;
     status_5xx_count := status_5xx_count r; options := options r;
     origin_link_result := origin_link_result r;
     followed_link_results := followed_link_results r |}.

Definition set_status_4xx_count v r :=
  {| link_count := link_count r; passing_link_count := passing_link_count r;
     failing_link_count := failing_link_count r;
     unreachable_count := unreachable_count r;
     status_2xx_count := status_2xx_count r;
     status_3xx_count := status_3xx_count r;
     status_4xx_count := v;
     status_5xx_count := status_5xx_count r; options := options r;
     origin_link_result := origin_link_result r;
     followed_link_results := followed_link_results r |}.

Definition set_status_5xx_count v r :=
  {| link_count := link_count r; passing_link_count := passing_link_count r;
     failing_link_count := failing_link_count r;
     unreachable_count := unreachable_count r;
     status_2xx_count := status_2xx_count r;
     status_3xx_count := status_3xx_count r;
     status_4xx_count := status_4xx_count r;
     status_5xx_count := v; options := options r;
     origin_link_result := origin_link_result r;
     followed_link_results := followed_link_results r |}.

Definition set_options v r :=
  {| link_count := link_count r; passing_link_count := passing_link_count r;
     failing_link_count := failing_link_count r;
     unreachable_count := unreachable_count r;
     status_2xx_count := status_2xx_count r;
     status_3xx_count := status_3xx_count r;
     status_4xx_count := status_4xx_count r;
     status_5xx_count := status_5xx_count r; options := v;
     origin_link_result := origin_link_result r;
     followed_link_results := followed_link_results r |}.

Definition set_origin_link_result v r :=
  {| link_count := link_count r; passing_link_count := passing_link_count r;
     failing_link_count := failing_link_count r;
     unreachable_count := unreachable_count r;
     status_2xx_count := status_2xx_count r;
     status_3xx_count := status_3xx_count r;
     status_4xx_count := status_4xx_count r;
     status_5xx_count := status_5xx_count r; options := options r;
     origin_link_result := v;
     followed_link_results := followed_link_results r |}.

(** [r.followed_link_results.push(link)]. *)
Definition push_followed_link_results link r :=
  {| link_count := link_count r; passing_link_count := passing_link_count r;
     failing_link_count := failing_link_count r;
     unreachable_count := unreachable_count r;
     status_2xx_count := status_2xx_count r;
     status_3xx_count := status_3xx_count r;
     status_4xx_count := status_4xx_count r;
     status_5xx_count := status_5xx_count r; options := options r;
     origin_link_result := origin_link_result r;
     followed_link_results := followed_link_results r ++ [link] |}.

(** [Math.floor(code / 100)]; on an absent code the quotient is [NaN],
    here [None], which no [case] label equals. *)
Definition Math_floor_div (code : option Z) (d : Z) : option Z :=
  (λ c, c / d) <$> code.

(** The object the accumulator starts from. *)
Definition initial_result : BrokenLinksResultV1 :=
  {| link_count := Some 0; passing_link_count := Some 0;
     failing_link_count := Some 0; unreachable_count := Some 0;
     status_2xx_count := Some 0; status_3xx_count := Some 0;
     status_4xx_count := Some 0; status_5xx_count := Some 0;
     options := empty_options;
     origin_link_result := empty_link_result;
     followed_link_results := [] |}.

(** One iteration of [for (const link of followed_links)]. *)
Definition loop_body (r : BrokenLinksResultV1) (link : SyntheticLinkResult)
    : BrokenLinksResultV1 :=
  let r :=
    if truthy (is_origin link) then set_origin_link_result link r
    else push_followed_link_results link r in
  let r := set_link_count (Some ((link_count r ?? 0) + 1)) r in
  let r :=
    if truthy (link_passed link)
    then set_passing_link_count (Some ((passing_link_count r ?? 0) + 1)) r
    else set_failing_link_count (Some ((failing_link_count r ?? 0) + 1)) r in
  match Math_floor_div (status_code link) 100 with
  | Some 2 => set_status_2xx_count (Some ((status_2xx_count r ?? 0) + 1)) r
  | Some 3 => set_status_3xx_count (Some ((status_3xx_count r ?? 0) + 1)) r
  | Some 4 => set_status_4xx_count (Some ((status_4xx_count r ?? 0) + 1)) r
  | Some 5 => set_status_5xx_count (Some ((status_5xx_count r ?? 0) + 1)) r
  | _ => set_unreachable_count (Some ((unreachable_count r ?? 0) + 1)) r
  end.

Definition parseFollowedLinks (followed_links : list SyntheticLinkResult)
    : BrokenLinksResultV1 :=
  fold_left loop_body followed_links initial_result.

(** [SyntheticResult]; [end_time] is the clock reading [now] taken when the
    envelope is built. *)
Record SyntheticResult : Set := {
  synthetic_broken_links_result_v1 : BrokenLinksResultV1;
  runtime_metadata : list (string * string);
  start_time : string;
  end_time : string
}.

Definition createSyntheticResult (now : string) (start : string)
    (metadata : list (string * string)) (opts : BrokenLinkCheckerOptions)
    (followed_links : list SyntheticLinkResult) : SyntheticResult :=
  let broken_links_result := parseFollowedLinks followed_links in
  let broken_links_result := set_options opts broken_links_result in
  {| synthetic_broken_links_result_v1 := broken_links_result;
     runtime_metadata := metadata;
     start_time := start;
     end_time := now |}.

(** The five counters a link's status can be booked on. *)
Inductive Bucket : Set :=
  | Bucket2xx | Bucket3xx | Bucket4xx | Bucket5xx | BucketUnreachable.

#[global] Instance Bucket_eq_dec : EqDecision Bucket.
Proof. solve_decision. Defined.

(** The value of a counter; an absent counter reads as [0]. *)
Definition counter (b : Bucket) (r : BrokenLinksResultV1) : Z :=
  match b with
  | Bucket2xx => status_2xx_count r
  | Bucket3xx => status_3xx_count r
  | Bucket4xx => status_4xx_count r
  | Bucket5xx => status_5xx_count r
  | BucketUnreachable => unreachable_count r
  end ?? 0.

(** The class of a status code, by integer division by 100. *)
Definition bucket_of (code : option Z) : Bucket :=
  match code with
  | None => BucketUnreachable
  | Some c =>
      if c / 100 =? 2 then Bucket2xx
      else if c / 100 =? 3 then Bucket3xx
      else if c / 100 =? 4 then Bucket4xx
      else if c / 100 =? 5 then Bucket5xx
      else BucketUnreachable
  end.

End Aggregation.

(** ** LinkSelector: [shuffleAndTruncate] *)

Module Selection.

Record LinkIntermediate : Set := {
  target_url : string;
  anchor_text : string;
  html_element : string
}.

#[global] Instance LinkIntermediate_eq_dec : EqDecision LinkIntermediate.
Proof. solve_decision. Defined.

(** Modelled from the spec: the enum
    [BrokenLinksResultV1_BrokenLinkCheckerOptions_LinkOrder] is declared in
    the API package.  The code only tests for [RANDOM]; the specification
    names the other ordering [SEQUENTIAL], and an unset ordering takes the
    same branch. *)
Inductive LinkOrder : Set :=
  | LINK_ORDER_UNSPECIFIED
  | SEQUENTIAL
  | RANDOM.

(** *** Array.prototype.slice *)

(** A relative index: negative indices count from the end. *)
Definition relative_index (len k : Z) : Z :=
  if k <? 0 then Z.max (len + k) 0 else Z.min k len.

Definition slice {A} (a : list A) (start end_ : Z) : list A :=
  let len := Z.of_nat (length a) in
  let k := relative_index len start in
  let final := relative_index len end_ in
  take (Z.to_nat (Z.max (final - k) 0)) (drop (Z.to_nat k) a).

Section Engine.

(** [Math.random()] returns [u / 2^precision] for some integer
    [0 <= u < 2^precision]; the number of bits is the engine's choice. *)
Variable precision : positive.

Definition Math_random (u : Z) : Q := u # (2 ^ precision).

(** The comparator [() => Math.random() - 0.5] on the draw [u]: it does
    not look at the two elements it is asked to compare. *)
Definition compareFn (u : Z) : Q := (Math_random u - (1 # 2))%Q.

(** [Array.prototype.sort] with a comparator that is not consistent sorts
    in an order the language leaves to the engine.  The engine is a
    parameter: from the comparator's successive results it computes the
    new order of the array, whatever the elements are. *)
Variable array_sort : ∀ A : Type, list Q → list A → list A.

(** The value computed by [shuffleAndTruncate]; [draws] are the numbers
    [Math.random] hands out during the call, and [[...links]] is a copy
    with the same elements. *)
Definition shuffleAndTruncate (draws : list Z)
    (links : list LinkIntermediate) (link_limit : Z)
    (link_order : LinkOrder) : list LinkIntermediate :=
  let linksToFollow :=
    match link_order with
    | RANDOM => array_sort _ (compareFn <$> draws) links
    | _ => links
    end in
  slice linksToFollow 0 (link_limit - 1).

(** *** The same function on a store of arrays

    Arrays are objects: [[...a]] and [slice] allocate a new array, [sort]
    rearranges the array it is called on and returns that same array. *)

Definition ref : Set := positive.

Definition St (A : Type) : Type :=
  gmap ref (list LinkIntermediate) → option (A * gmap ref (list LinkIntermediate)).

Definition st_ret {A} (x : A) : St A := λ σ, Some (x, σ).

Definition st_bind {A B} (m : St A) (k : A → St B) : St B :=
  λ σ, match m σ with
       | Some (x, σ') => k x σ'
       | None => None
       end.

Notation "'let*' x := m 'in' k" := (st_bind m (λ x, k))
  (at level 10, x name, m at level 100, k at level 200).

Definition array_get (a : ref) : St (list LinkIntermediate) :=
  λ σ, (λ l, (l, σ)) <$> σ !! a.

Definition array_set (a : ref) (l : list LinkIntermediate) : St unit :=
  λ σ, match σ !! a with
       | Some _ => Some (tt, <[a := l]> σ)
       | None => None
       end.

Definition array_new (l : list LinkIntermediate) : St ref :=
  λ σ, let a := fresh (dom σ) in Some (a, <[a := l]> σ).

(** [[...a]] *)
Definition spread_st (a : ref) : St ref :=
  let* l := array_get a in array_new l.

(** [a.sort(() => Math.random() - 0.5)] *)
Definition sort_st (draws : list Z) (a : ref) : St ref :=
  let* l := array_get a in
  let* _ := array_set a (array_sort _ (compareFn <$> draws) l) in
  st_ret a.

(** [a.slice(start, end)] *)
Definition slice_st (a : ref) (start end_ : Z) : St ref :=
  let* l := array_get a in array_new (slice l start end_).

Definition shuffleAndTruncate_st (draws : list Z) (links : ref)
    (link_limit : Z) (link_order : LinkOrder) : St ref :=
  let* linksToFollow :=
    match link_order with
    | RANDOM => let* copy := spread_st links in sort_st draws copy
    | _ => spread_st links
    end in
  slice_st linksToFollow 0 (link_limit - 1).

(** *** The distribution of the random ordering

    With [k] calls of [Math.random], each of the [2^precision] values
    equally likely and the calls independent, every sequence in
    [outcomes k] has the same probability; [k] is any number of calls the
    engine's sort does not exceed on the array at hand. *)
Definition Math_random_draws : list Z := seqZ 0 (Z.pos (2 ^ precision)).

Fixpoint outcomes (k : nat) : list (list Z) :=
  match k with
  | O => [[]]
  | S k' => u ← Math_random_draws; (λ ds, u :: ds) <$> outcomes k'
  end.

(** The outcomes that put [x] at position [i] of the result. *)
Definition favourable (k : nat) (links : list LinkIntermediate)
    (link_limit : Z) (i : nat) (x : LinkIntermediate) : list (list Z) :=
  filter (λ ds, shuffleAndTruncate ds links link_limit RANDOM !! i = Some x)
         (outcomes k).

End Engine.

(** A simple sort to instantiate the engine with where a statement holds
    for every engine: insertion sort, each element moved left past its
    neighbour as long as the comparator's result is positive.  It is not
    the procedure of any particular JavaScript engine.  [prefix] is the
    sorted part, nearest neighbour first. *)
Fixpoint insert_left {A} (results : list Q) (x : A) (prefix : list A)
    {struct prefix} : list A * list Q :=
  match prefix, results with
  | y :: prefix', r :: results' =>
      if Qle_bool r 0 then (x :: prefix, results')
      else let '(p, rest) := insert_left results' x prefix' in (y :: p, rest)
  | _, _ => (x :: prefix, results)
  end.

Fixpoint insertion_loop {A} (results : list Q) (prefix todo : list A) : list A :=
  match todo with
  | [] => reverse prefix
  | x :: todo' =>
      let '(p, rest) := insert_left results x prefix in
      insertion_loop rest p todo'
  end.

Definition insertion_sort (A : Type) (results : list Q) (a : list A) : list A :=
  insertion_loop results [] a.

(** *** The sort of V8 (Node.js) on a short array

    [Array.prototype.sort] in V8 is TimSort.  On an array of fewer than 64
    elements the whole array is a single run: [CountAndMakeRun] finds the
    run the array starts with (and reverses it when it descends), and
    [BinaryInsertionSort] puts the remaining elements in place.  Arrays of
    64 elements and more are cut into several runs that are then merged;
    these definitions do not describe them.

    Both procedures only ask of a comparator result whether [order < 0];
    [flags] are the answers for the successive calls of the comparator (a
    call beyond the supplied results reads as 0). *)

Definition is_negative (order : Q) : bool := negb (Qle_bool 0 order).

Definition next_flag (flags : list bool) : bool * list bool :=
  match flags with
  | flag :: flags' => (flag, flags')
  | [] => (false, [])
  end.

(** The loop of [CountAndMakeRun]: [todo] are the elements after the run
    found so far; the run ends at the first element that breaks the
    direction. *)
Fixpoint count_run {A} (descending : bool) (flags : list bool)
    (run_length : nat) (todo : list A) : nat * list bool :=
  match todo with
  | [] => (run_length, flags)
  | _ :: todo' =>
      let '(negative, flags') := next_flag flags in
      if (if descending then negb negative else negative)
      then (run_length, flags')
      else count_run descending flags' (S run_length) todo'
  end.

Definition CountAndMakeRun {A} (flags : list bool) (work : list A)
    : list A * nat * list bool :=
  match work with
  | _ :: _ :: todo =>
      let '(descending, flags1) := next_flag flags in
      let '(run_length, flags2) := count_run descending flags1 2 todo in
      (if descending
       then reverse (take run_length work) ++ drop run_length work
       else work,
       run_length, flags2)
  | _ => (work, length work, flags)
  end.

(** The binary search of [BinaryInsertionSort] for the place of the pivot
    in [work[left..right)]. *)
Fixpoint binary_search (fuel : nat) (flags : list bool) (left right : nat)
    : nat * list bool :=
  match fuel with
  | O => (left, flags)
  | S fuel' =>
      if (left <? right)%nat then
        let mid := (left + Nat.div2 (right - left))%nat in
        let '(negative, flags') := next_flag flags in
        if negative then binary_search fuel' flags' left mid
        else binary_search fuel' flags' (S mid) right
      else (left, flags)
  end.

Fixpoint BinaryInsertionSort {A} (flags : list bool) (sorted todo : list A)
    : list A :=
  match todo with
  | [] => sorted
  | pivot :: todo' =>
      let '(place, flags') :=
        binary_search (length sorted) flags 0 (length sorted) in
      BinaryInsertionSort flags'
        (take place sorted ++ pivot :: drop place sorted) todo'
  end.

Definition ArrayTimSortImpl {A} (flags : list bool) (work : list A) : list A :=
  if (length work <? 2)%nat then work
  else
    let '(work', run_length, flags') := CountAndMakeRun flags work in
    BinaryInsertionSort flags' (take run_length work') (drop run_length work').

Definition v8_sort (A : Type) (results : list Q) (work : list A) : list A :=
  ArrayTimSortImpl (is_negative <$> results) work.

(** Whether the comparator's result on the draw [u] is negative. *)
Definition negative_draw (precision : positive) (u : Z) : bool :=
  is_negative (compareFn precision u).

(** The number of draws on which the comparator's result is negative, and
    the number of those on which it is not: half of the draws each. *)
Definition half_of_draws (precision : positive) : nat :=
  Z.to_nat (2 ^ (Z.pos precision - 1)).

(** The position in the input of the element that V8's sort puts first
    in an array of three. *)
Definition first_of_three (flags : list bool) : option nat :=
  slice (ArrayTimSortImpl flags [0; 1; 2]%nat) 0 (4 - 1) !! 0%nat.

(** All sequences of [k] answers to [order < 0]. *)
Fixpoint sign_patterns (k : nat) : list (list bool) :=
  match k with
  | O => [[]]
  | S k' => flag ← [true; false]; (λ flags, flag :: flags) <$> sign_patterns k'
  end.

(** Three links to run the definitions on. *)
Definition link_a : LinkIntermediate :=
  {| target_url := "https://a/1"; anchor_text := "one";
     html_element := "a" |}.
Definition link_b : LinkIntermediate :=
  {| target_url := "https://a/2"; anchor_text := "two";
     html_element := "a" |}.
Definition link_c : LinkIntermediate :=
  {| target_url := "https://a/3"; anchor_text := "three";
     html_element := "a" |}.

End Selection.

(** ** Page and browser lifecycle: [openNewPage], [closeBrowser],
    [closePagePool] *)

Module Resources.

(** The [message] of an [Error], as [process.stderr.write] sees it: a
    string, which it writes, or any other value (a number, [undefined], an
    object), on which it throws a [TypeError]; [complaint] is the message
    of that [TypeError]. *)
Inductive Message : Set :=
  | WritableMessage (chunk : string)
  | UnwritableMessage (complaint : string).

(** A thrown value, as far as the handlers look at it: an instance of
    [Error] with its [message], or any other value. *)
Inductive Thrown : Set :=
  | ThrownError (message : Message)
  | ThrownOther.

(** How a call ends.  An awaited promise that rejects ends the [await] by
    throwing the rejection reason, so both ways of failing are [Threw]. *)
Inductive Outcome (A : Type) : Type :=
  | Returned (a : A)
  | Threw (e : Thrown).

Arguments Returned {A} a.
Arguments Threw {A} e.

(** Modelled from the spec: [Page] and [Browser] belong to the browser
    automation library.  What their calls do is the collaborator's
    business and a datum here: [setCacheEnabled] either throws at once or
    returns (its promise is not awaited, what becomes of it is not seen),
    [page_close] and [browser_close] are awaited. *)
Record Page : Type := {
  page_id : nat;
  setCacheEnabled : bool → Outcome unit;
  page_close : Outcome unit
}.

Record Browser : Type := {
  newPage : Outcome Page;
  browser_close : Outcome unit
}.

(** What the functions do to the outside, in order. *)
Inductive Event : Set :=
  | EvNewPage
  | EvSetCacheEnabled (id : nat) (enabled : bool)
  | EvPageClose (id : nat)
  | EvBrowserClose
  | EvStderrWrite (chunk : string).

(** A computation: the events it causes and how it ends. *)
Definition Run (A : Type) : Type := list Event * Outcome A.

Definition run_ret {A} (x : A) : Run A := ([], Returned x).

Definition run_throw {A} (e : Thrown) : Run A := ([], Threw e).


(** [try { m } catch (e) { handler e }] *)
Definition try_catch {A} (m : Run A) (handler : Thrown → Run A) : Run A :=
  match m with
  | (t, Returned a) => (t, Returned a)
  | (t, Threw e) => let '(t', o) := handler e in (t ++ t', o)
  end.

(** A call of the collaborator: the event, and the outcome it is given. *)
Definition call {A} (ev : Event) (o : Outcome A) : Run A := ([ev], o).

(** [process.stderr.write(message)]: writes a string; throws its
    [TypeError] on anything else, and then writes nothing. *)
Definition stderr_write (message : Message) : Run unit :=
  match message with
  | WritableMessage chunk => call (EvStderrWrite chunk) (Returned tt)
  | UnwritableMessage complaint =>
      run_throw (ThrownError (WritableMessage complaint))
  end.

(** [if (err instanceof Error) process.stderr.write(err.message)] *)
Definition write_message (err : Thrown) : Run unit :=
  match err with
  | ThrownError message => stderr_write message
  | ThrownOther => run_ret tt
  end.



Definition closeBrowser (browser : Browser) : Run unit :=
  try_catch (call EvBrowserClose (browser_close browser)) write_message.

(** [pagePool.map(async (page) => await page.close())]: [close] is called
    on every page, in the order of the pool, before anything is awaited;
    the result is the list of the promises' outcomes. *)
Definition map_close (pagePool : list Page) : list Event * list (Outcome unit) :=
  ((λ page, EvPageClose (page_id page)) <$> pagePool, page_close <$> pagePool).

Definition rejections {A} (promises : list (Outcome A)) : list Thrown :=
  omap (λ o, match o with Threw e => Some e | Returned _ => None end) promises.

(** [await Promise.all(promises)]: fulfilled when all are, otherwise
    rejected with the reason of the promise that rejects first.  Which one
    that is depends on time; [earliest] is the collaborators' choice among
    the rejections. *)
Definition Promise_all {A} (earliest : nat) (promises : list (Outcome A))
    : Outcome unit :=
  match rejections promises with
  | [] => Returned tt
  | e :: es => Threw (nth earliest (e :: es) e)
  end.

Definition closePagePool (earliest : nat) (pagePool : list Page) : Run unit :=
  try_catch
    (let '(t, promises) := map_close pagePool in
     (t, Promise_all earliest promises))
    write_message.


(** Pages and browsers to run the definitions on. *)
Definition page_ok (id : nat) : Page :=
  {| page_id := id; setCacheEnabled := λ _, Returned tt;
     page_close := Returned tt |}.

Definition page_stuck (id : nat) (message : string) : Page :=
  {| page_id := id; setCacheEnabled := λ _, Returned tt;
     page_close := Threw (ThrownError (WritableMessage message)) |}.

(** A page whose [close] fails with an [Error] whose [message] is not a
    string. *)
Definition page_broken (id : nat) (complaint : string) : Page :=
  {| page_id := id; setCacheEnabled := λ _, Returned tt;
     page_close := Threw (ThrownError (UnwritableMessage complaint)) |}.

End Resources.

(** ** Vocabulary for the further properties *)

(** The classes [checkStatusPassing] has a case for. *)
Definition recognised_classes
    : list StatusEvaluator.ResponseStatusCode_StatusClass :=
  [StatusEvaluator.STATUS_CLASS_1XX; StatusEvaluator.STATUS_CLASS_2XX;
   StatusEvaluator.STATUS_CLASS_3XX; StatusEvaluator.STATUS_CLASS_4XX;
   StatusEvaluator.STATUS_CLASS_5XX].

(** An expectation that only names a class. *)
Definition expect_class (cls : StatusEvaluator.ResponseStatusCode_StatusClass)
    : option StatusEvaluator.ResponseStatusCode :=
  Some {| StatusEvaluator.status_value := None;
          StatusEvaluator.status_class := Some cls |}.

(** The sum of the five status counters of a report. *)
Definition status_total (r : Aggregation.BrokenLinksResultV1) : Z :=
  Aggregation.counter Aggregation.Bucket2xx r
  + Aggregation.counter Aggregation.Bucket3xx r
  + Aggregation.counter Aggregation.Bucket4xx r
  + Aggregation.counter Aggregation.Bucket5xx r
  + Aggregation.counter Aggregation.BucketUnreachable r.

(** * Theorems *)

Import StatusEvaluator ResponseShape Navigation Aggregation Selection.

(** ** StatusEvaluator *)

(** C7 — [checkStatusPassing] agrees with the reference definition on every
    expectation and every integer status code: with an exact value the
    result is [actual = value], whatever class is also set; otherwise with
    a recognised class [c] in 1..5 it is [100c <= actual <= 100c+99];
    otherwise (class not recognised, or nothing set) it is [false]. *)
Theorem checkStatusPassing_refines_reference :
  (∀ (expected : option ResponseStatusCode) (actual : Z),
     checkStatusPassing expected actual = isPassing_reference expected actual)
  ∧ (∀ (v : Z) (cls : option ResponseStatusCode_StatusClass) (actual : Z),
       checkStatusPassing
         (Some {| status_value := Some v; status_class := cls |}) actual
       = bool_decide (actual = v))
  ∧ (∀ actual : Z,
       checkStatusPassing None actual = false
       ∧ checkStatusPassing
           (Some {| status_value := None; status_class := None |}) actual
         = false
       ∧ checkStatusPassing
           (Some {| status_value := None;
                    status_class := Some STATUS_CLASS_OTHER |}) actual
         = false).
Proof.
  assert (Hexact : ∀ v actual : Z, (v =? actual) = bool_decide (actual = v)).
  { intros v actual. destruct (Z.eqb_spec v actual) as [->|Hne].
    - by rewrite bool_decide_eq_true_2.
    - rewrite bool_decide_eq_false_2; [done | congruence]. }
  split; [|split].
  - intros [[[v|] cls]|] actual; cbn; [apply Hexact | | done].
    destruct cls as [[]|]; cbn; try done;
      rewrite Z.geb_leb;
      match goal with
      | |- ?b = bool_decide ?P =>
          destruct (bool_decide_reflect P); destruct b eqn:Hb; try done; lia
      end.
  - intros v cls actual. cbn. apply Hexact.
  - done.
Qed.

(** ** Response shape check *)

Lemma has_property_spec (k : string) :
  ∀ o : JsObject, has_property o k = true ↔ HasProperty k o.
Proof.
  fix IH 1. intros [own [p|]].
  - pose proof (IH p) as IHp. clear IH. simpl.
    rewrite orb_true_iff, bool_decide_eq_true, IHp. split.
    + intros [Hown|Hp]; [by constructor | by apply HasProperty_inherited].
    + inversion 1; subst; auto.
  - clear IH. simpl. rewrite orb_false_r, bool_decide_eq_true. split.
    + by constructor.
    + by inversion 1.
Qed.

(** C10 — [isHTTPResponse] never throws and answers [true] exactly on a
    non-null object that possesses a ['status'] property (its own or an
    inherited one).  So an [Error] object (any object) that carries a
    [status] member is taken for a response, and [null] never is. *)
Theorem isHTTPResponse_iff_object_with_status :
  (∀ v : JsValue, ∃ b : bool,
     isHTTPResponse v = Some b
     ∧ (b = true ↔ ∃ o : JsObject, v = JsObj o ∧ HasProperty "status" o))
  ∧ (∀ (own : gset string) (proto : option JsObject),
       isHTTPResponse (JsObj (mkObject ({["status"]} ∪ own) proto)) = Some true)
  ∧ isHTTPResponse JsNull = Some false.
Proof.
  split; [|split].
  - intros v. destruct v as [| |b|n|s|o]; cbn;
      try (exists false; split; [done|]; split; [done|];
           intros (o & Ho & _); discriminate).
    exists (has_property o "status"). split; [done|].
    rewrite has_property_spec. split.
    + intros Hp. by exists o.
    + intros (o' & [= <-] & Hp). done.
  - intros own proto. unfold isHTTPResponse, js_in. simpl.
    f_equal. apply orb_true_iff. left.
    apply bool_decide_eq_true. set_solver.
  - done.
Qed.

(** ** Fragment-navigation test *)

Lemma append_nil_l (t : string) : EmptyString +:+ t = t.
Proof. reflexivity. Qed.

Lemma append_cons (c : Ascii.ascii) (s t : string) :
  String c s +:+ t = String c (s +:+ t).
Proof. reflexivity. Qed.

(** Normalise concatenations with a known first character. *)
Ltac push_append :=
  repeat first
    [ rewrite append_cons in *
    | rewrite append_nil_l in * ].

Lemma startsWith_spec (needle : string) :
  ∀ s : string, startsWith s needle = true ↔ ∃ post, s = needle +:+ post.
Proof.
  induction needle as [|c needle IH]; intros s.
  - destruct s; simpl; split; eauto.
  - destruct s as [|d s]; simpl.
    + split; [done | intros [post Hpost]; push_append; discriminate].
    + destruct (Ascii.eqb_spec c d) as [->|Hne].
      * rewrite IH.
        split; intros [post Hpost]; exists post; push_append; congruence.
      * split; [done | intros [post Hpost]; push_append; congruence].
Qed.

Lemma includes_spec (needle : string) :
  ∀ s : string, includes s needle = true ↔ occurs_in needle s.
Proof.
  unfold occurs_in.
  induction s as [|a s IH]; cbn [includes];
    rewrite orb_true_iff, startsWith_spec.
  - split.
    + intros [[post Hpost]|]; [|done]. by exists EmptyString, post.
    + intros ([|? pre] & post & Hs); push_append; [|discriminate].
      left. by exists post.
  - rewrite IH. split.
    + intros [[post Hpost]|(pre & post & Hs)].
      * by exists EmptyString, post.
      * exists (String a pre), post. push_append. congruence.
    + intros ([|b pre] & post & Hs); push_append.
      * left. by exists post.
      * right. exists pre, post. congruence.
Qed.

Lemma string_length_app (s t : string) :
  String.length (s +:+ t) = (String.length s + String.length t)%nat.
Proof. induction s; push_append; simpl; congruence. Qed.

Lemma string_take_app (s t : string) :
  string_take (String.length s) (s +:+ t) = s.
Proof. induction s; push_append; simpl; [by destruct t | congruence]. Qed.

Lemma substring_prefix (s t : string) :
  substring (s +:+ t) 0 (Z.of_nat (String.length s)) = s.
Proof.
  unfold substring. rewrite string_length_app.
  replace (Z.min (Z.max 0 0) _) with 0 by lia.
  replace (Z.min (Z.max (Z.of_nat (String.length s)) 0) _)
    with (Z.of_nat (String.length s)) by lia.
  replace (Z.min 0 _) with 0 by lia.
  replace (Z.max 0 _ - 0) with (Z.of_nat (String.length s)) by lia.
  rewrite Nat2Z.id. simpl. apply string_take_app.
Qed.

Lemma base_url_no_hash (u : string) : ¬ occurs_in "#" (base_url u).
Proof.
  induction u as [|c u IH]; cbn [base_url].
  - intros ([|? ?] & post & H); push_append; discriminate.
  - destruct (Ascii.eqb_spec hash c) as [<-|Hne].
    + intros ([|? ?] & post & H); push_append; discriminate.
    + intros ([|b pre] & post & H); push_append.
      * injection H as Hc _. by destruct Hne.
      * injection H as _ H. apply IH. by exists pre, post.
Qed.

Lemma base_url_unique (base frag : string) :
  ¬ occurs_in "#" base → base_url (base +:+ "#" +:+ frag) = base.
Proof.
  induction base as [|c base IH]; intros Hno; push_append; [done|].
  cbn [base_url].
  destruct (Ascii.eqb_spec hash c) as [<-|Hne].
  - destruct Hno. by exists EmptyString, base.
  - f_equal. apply IH. intros (pre & post & H). apply Hno.
    exists (String c pre), post. push_append. by rewrite H.
Qed.

Lemma indexOf_hash (u : string) :
  includes u "#" = true →
  indexOf u "#" = Z.of_nat (String.length (base_url u))
  ∧ ∃ frag, u = base_url u +:+ "#" +:+ frag.
Proof.
  induction u as [|c u IH]; [done|].
  cbn [includes indexOf startsWith base_url]. unfold hash.
  match goal with
  | |- context [Ascii.eqb ?h c] => destruct (Ascii.eqb_spec h c) as [<-|Hne]
  end.
  - intros _. split; [by destruct u|]. exists u. by destruct u.
  - cbn [orb]. intros Hinc. destruct (IH Hinc) as [Hidx [frag Hfrag]].
    rewrite Hidx. split.
    + destruct (Z.ltb_spec (Z.of_nat (String.length (base_url u))) 0);
        [lia|]. cbn [String.length]. lia.
    + exists frag. push_append. by rewrite <- Hfrag.
Qed.

(** C6, as the code has it — [shouldGoToBlankPage] answers [true] exactly
    when the target has a fragment ([target = base # fragment], [base]
    without ['#']) and [base] occurs somewhere in the current URL; this is
    the case for ['https://a/x#1'] to ['https://a/x#2'] and not for
    ['https://a/x'] to ['https://b/y']. *)
Theorem shouldGoToBlankPage_iff_base_occurs :
  (∀ current_url target_url : string,
     shouldGoToBlankPage current_url target_url = true
     ↔ ∃ base fragment : string,
         target_url = base +:+ "#" +:+ fragment
         ∧ ¬ occurs_in "#" base
         ∧ occurs_in base current_url)
  ∧ shouldGoToBlankPage "https://a/x#1" "https://a/x#2" = true
  ∧ shouldGoToBlankPage "https://a/x" "https://b/y" = false.
Proof.
  split; [|split; reflexivity].
  intros cur tgt. unfold shouldGoToBlankPage.
  rewrite andb_true_iff. split.
  - intros [Hhash Hinc].
    destruct (indexOf_hash tgt Hhash) as [Hidx [frag Hfrag]].
    exists (base_url tgt), frag. split; [done|].
    split; [apply base_url_no_hash|].
    apply includes_spec.
    rewrite Hidx, Hfrag, base_url_unique, substring_prefix in Hinc;
      [done | apply base_url_no_hash].
  - intros (base & frag & -> & Hno & Hocc).
    assert (Hhash : includes (base +:+ "#" +:+ frag) "#" = true).
    { apply includes_spec. by exists base, frag. }
    split; [done|].
    destruct (indexOf_hash _ Hhash) as [Hidx _].
    rewrite Hidx, base_url_unique, substring_prefix by done.
    by apply includes_spec.
Qed.

(** C6, as the claim words it, fails: from ['https://a/xyz'] to
    ['https://a/x#1'] the answer is [true] although the two URLs have
    different bases. *)
Lemma shouldGoToBlankPage_not_fragment_only :
  ¬ (shouldGoToBlankPage "https://a/xyz" "https://a/x#1" = true
     ↔ differ_only_by_fragment "https://a/xyz" "https://a/x#1").
Proof.
  intros [Hto _]. destruct (Hto eq_refl) as [Hbase _].
  vm_compute in Hbase. discriminate.
Qed.

(** ** ResultAggregator *)

Lemma loop_body_counter (b : Bucket) (r : BrokenLinksResultV1)
    (link : SyntheticLinkResult) :
  counter b (loop_body r link)
  = counter b r
    + (if decide (b = bucket_of (status_code link)) then 1 else 0).
Proof.
  destruct link as [passed code origin uri]. unfold loop_body.
  cbn [status_code is_origin link_passed].
  destruct code as [c|].
  - change (Math_floor_div (Some c) 100) with (Some (c / 100)).
    cbn [bucket_of]. generalize (c / 100). intros q.
    destruct q as [|[[[]|[]|]|[[]|[]|]|]|]; cbn [Z.eqb Pos.eqb];
      destruct b, (truthy origin), (truthy passed);
      unfold counter; simpl; try case_decide; try done; unfold nullish; lia.
  - change (Math_floor_div None 100) with (@None Z).
    destruct b, (truthy origin), (truthy passed);
      unfold counter; simpl; try case_decide; try done; unfold nullish; lia.
Qed.

Lemma fold_loop_body_counter (b : Bucket) (links : list SyntheticLinkResult) :
  ∀ r : BrokenLinksResultV1,
    counter b (fold_left loop_body links r)
    = counter b r
      + Z.of_nat (length (filter (λ l, bucket_of (status_code l) = b) links)).
Proof.
  induction links as [|link links IH]; intros r; cbn [fold_left].
  - rewrite filter_nil. cbn. lia.
  - rewrite IH, loop_body_counter, filter_cons.
    destruct (decide (b = bucket_of (status_code link))) as [->|Hne].
    + rewrite decide_True by done. cbn [length]. lia.
    + rewrite decide_False by done. lia.
Qed.

(** C4 — every link is booked on exactly one of the five counters
    [status_2xx_count], [status_3xx_count], [status_4xx_count],
    [status_5xx_count], [unreachable_count]: one iteration of the loop adds
    one to the counter of the link's bucket and leaves the other four as
    they were, so that after the loop each counter is the number of links of
    its bucket.  The bucket is chosen by the quotient of the status code by
    100; it is [unreachable] exactly for an absent code and for codes below
    200 or above 599 (so for every code outside 100..599); 200, 301, 404 and
    503 go to the 2xx, 3xx, 4xx and 5xx counters. *)
Theorem parseFollowedLinks_one_bucket_per_link :
  (∀ (r : BrokenLinksResultV1) (link : SyntheticLinkResult) (b : Bucket),
     counter b (loop_body r link)
     = counter b r
       + (if decide (b = bucket_of (status_code link)) then 1 else 0))
  ∧ (∀ (links : list SyntheticLinkResult) (b : Bucket),
       counter b (parseFollowedLinks links)
       = Z.of_nat
           (length (filter (λ l, bucket_of (status_code l) = b) links)))
  ∧ (∀ code : option Z,
       bucket_of code = BucketUnreachable
       ↔ code = None ∨ ∃ c : Z, code = Some c ∧ (c < 200 ∨ 599 < c))
  ∧ (∀ c : Z,
       (bucket_of (Some c) = Bucket2xx ↔ c / 100 = 2)
       ∧ (bucket_of (Some c) = Bucket3xx ↔ c / 100 = 3)
       ∧ (bucket_of (Some c) = Bucket4xx ↔ c / 100 = 4)
       ∧ (bucket_of (Some c) = Bucket5xx ↔ c / 100 = 5))
  ∧ bucket_of (Some 200) = Bucket2xx
  ∧ bucket_of (Some 301) = Bucket3xx
  ∧ bucket_of (Some 404) = Bucket4xx
  ∧ bucket_of (Some 503) = Bucket5xx
  ∧ bucket_of None = BucketUnreachable.
Proof.
  split; [intros r link b; apply loop_body_counter|].
  split.
  { intros links b. unfold parseFollowedLinks.
    rewrite fold_loop_body_counter. by destruct b. }
  split.
  { intros [c|]; cbn [bucket_of].
    - pose proof (Z.div_mod c 100 ltac:(lia)) as Hdm.
      pose proof (Z.mod_pos_bound c 100 ltac:(lia)) as Hm.
      destruct (Z.eqb_spec (c / 100) 2);
        [|destruct (Z.eqb_spec (c / 100) 3);
          [|destruct (Z.eqb_spec (c / 100) 4);
            [|destruct (Z.eqb_spec (c / 100) 5)]]].
      all: split;
        [ first [discriminate | intros _; right; exists c; split; [done|lia]]
        | intros [Hc|(c' & Hc' & Hc)];
          [ discriminate | injection Hc' as <-; first [done | lia] ] ].
    - split; [by left | done]. }
  split.
  { intros c. cbn [bucket_of].
    destruct (Z.eqb_spec (c / 100) 2);
      [|destruct (Z.eqb_spec (c / 100) 3);
        [|destruct (Z.eqb_spec (c / 100) 4);
          [|destruct (Z.eqb_spec (c / 100) 5)]]].
    all: repeat split; first [done | discriminate | lia]. }
  repeat split.
Qed.

Lemma loop_body_counts (r : BrokenLinksResultV1) (link : SyntheticLinkResult) :
  link_count (loop_body r link) = Some ((link_count r ?? 0) + 1)
  ∧ passing_link_count (loop_body r link)
    = (if truthy (link_passed link)
       then Some ((passing_link_count r ?? 0) + 1)
       else passing_link_count r)
  ∧ failing_link_count (loop_body r link)
    = (if truthy (link_passed link)
       then failing_link_count r
       else Some ((failing_link_count r ?? 0) + 1)).
Proof.
  unfold loop_body.
  destruct (Math_floor_div (status_code link) 100)
    as [[|[[[]|[]|]|[[]|[]|]|]|]|];
    destruct (truthy (is_origin link)), (truthy (link_passed link));
    repeat split.
Qed.

Lemma fold_loop_body_counts (links : list SyntheticLinkResult) :
  ∀ (r : BrokenLinksResultV1) (n p f : Z),
    link_count r = Some n →
    passing_link_count r = Some p →
    failing_link_count r = Some f →
    let r' := fold_left loop_body links r in
    link_count r' = Some (n + Z.of_nat (length links))
    ∧ passing_link_count r'
      = Some (p + Z.of_nat
                    (length (filter (λ l, link_passed l = Some true) links)))
    ∧ failing_link_count r'
      = Some (f + Z.of_nat
                    (length (filter (λ l, link_passed l ≠ Some true) links))).
Proof.
  induction links as [|link links IH]; intros r n p f Hn Hp Hf; cbn zeta.
  - cbn [fold_left length]. rewrite !filter_nil. cbn [length].
    rewrite !Z.add_0_r. done.
  - cbn [fold_left].
    destruct (loop_body_counts r link) as (Hn' & Hp' & Hf').
    rewrite Hn, Hp, Hf in *. cbn [nullish] in *.
    rewrite !filter_cons.
    destruct (link_passed link) as [[]|] eqn:Hpassed; cbn [truthy] in *.
    + rewrite decide_True by done.
      rewrite decide_False by (intros Hne; by apply Hne).
      destruct (IH _ _ _ _ Hn' Hp' Hf') as (-> & -> & ->).
      cbn [length]. repeat split; f_equal; lia.
    + rewrite decide_False, decide_True by done.
      destruct (IH _ _ _ _ Hn' Hp' Hf') as (-> & -> & ->).
      cbn [length]. repeat split; f_equal; lia.
    + rewrite decide_False, decide_True by done.
      destruct (IH _ _ _ _ Hn' Hp' Hf') as (-> & -> & ->).
      cbn [length]. repeat split; f_equal; lia.
Qed.

Lemma length_filter_partition_passed (links : list SyntheticLinkResult) :
  (length (filter (λ l, link_passed l = Some true) links)
   + length (filter (λ l, link_passed l ≠ Some true) links))%nat
  = length links.
Proof.
  induction links as [|link links IH]; [done|].
  rewrite !filter_cons.
  destruct (decide (link_passed link = Some true)) as [Heq|Hne].
  - rewrite decide_False by (intros Hne; by apply Hne). cbn [length]. lia.
  - rewrite decide_True by done. cbn [length]. lia.
Qed.

(** C5 — for every input sequence, the empty one and those without an
    origin link included, the report has
    [link_count = passing_link_count + failing_link_count]; [link_count] is
    the length of the input and [passing_link_count] the number of links
    whose [link_passed] is [true]. *)
Theorem parseFollowedLinks_link_count_splits :
  ∀ links : list SyntheticLinkResult,
    ∃ n p f : Z,
      link_count (parseFollowedLinks links) = Some n
      ∧ passing_link_count (parseFollowedLinks links) = Some p
      ∧ failing_link_count (parseFollowedLinks links) = Some f
      ∧ n = p + f
      ∧ n = Z.of_nat (length links)
      ∧ p = Z.of_nat (length (filter (λ l, link_passed l = Some true) links))
      ∧ f = Z.of_nat (length (filter (λ l, link_passed l ≠ Some true) links)).
Proof.
  intros links.
  destruct (fold_loop_body_counts links initial_result 0 0 0
              eq_refl eq_refl eq_refl) as (Hn & Hp & Hf).
  unfold parseFollowedLinks. rewrite Hn, Hp, Hf.
  eexists _, _, _. repeat split; try lia.
  pose proof (length_filter_partition_passed links). lia.
Qed.

Lemma loop_body_routing (r : BrokenLinksResultV1) (link : SyntheticLinkResult) :
  followed_link_results (loop_body r link)
  = (if truthy (is_origin link) then followed_link_results r
     else followed_link_results r ++ [link])
  ∧ origin_link_result (loop_body r link)
    = (if truthy (is_origin link) then link else origin_link_result r).
Proof.
  unfold loop_body.
  destruct (Math_floor_div (status_code link) 100)
    as [[|[[[]|[]|]|[[]|[]|]|]|]|];
    destruct (truthy (is_origin link)), (truthy (link_passed link));
    split; reflexivity.
Qed.

Lemma default_last_cons {A} (d x : A) (l : list A) :
  default d (last (x :: l)) = default x (last l).
Proof.
  revert d x. induction l as [|y l IH]; intros d x; [done|].
  change (last (x :: y :: l)) with (last (y :: l)).
  by rewrite !IH.
Qed.

Lemma fold_loop_body_routing (links : list SyntheticLinkResult) :
  ∀ r : BrokenLinksResultV1,
    followed_link_results (fold_left loop_body links r)
    = followed_link_results r
      ++ filter (λ l, is_origin l ≠ Some true) links
    ∧ origin_link_result (fold_left loop_body links r)
      = default (origin_link_result r)
          (last (filter (λ l, is_origin l = Some true) links)).
Proof.
  induction links as [|link links IH]; intros r; cbn [fold_left].
  - rewrite !filter_nil, app_nil_r. split; reflexivity.
  - destruct (IH (loop_body r link)) as [-> ->].
    destruct (loop_body_routing r link) as [-> ->].
    rewrite !filter_cons.
    destruct (is_origin link) as [[]|] eqn:Horigin; cbn [truthy].
    + rewrite decide_False by (intros Hne; by apply Hne).
      rewrite decide_True by done.
      by rewrite default_last_cons.
    + rewrite decide_True, decide_False by done.
      by rewrite <- app_assoc.
    + rewrite decide_True, decide_False by done.
      by rewrite <- app_assoc.
Qed.

(** C8 — the loop routes each element by its [is_origin] flag: the report's
    [followed_link_results] are the input elements whose [is_origin] is not
    [true] (it is [false] or absent), in the order of the input, and
    [origin_link_result] is the last input element whose [is_origin] is
    [true], or the empty placeholder [{}] when there is none. *)
Theorem parseFollowedLinks_routes_by_is_origin :
  ∀ links : list SyntheticLinkResult,
    followed_link_results (parseFollowedLinks links)
    = filter (λ l, is_origin l ≠ Some true) links
    ∧ origin_link_result (parseFollowedLinks links)
      = default empty_link_result
          (last (filter (λ l, is_origin l = Some true) links)).
Proof.
  intros links. unfold parseFollowedLinks.
  by destruct (fold_loop_body_routing links initial_result) as [-> ->].
Qed.

(** The envelope carries the report of [parseFollowedLinks], with only
    [options] replaced. *)
Lemma createSyntheticResult_report (now start : string)
    (metadata : list (string * string)) (opts : BrokenLinkCheckerOptions)
    (links : list SyntheticLinkResult) :
  synthetic_broken_links_result_v1
    (createSyntheticResult now start metadata opts links)
  = set_options opts (parseFollowedLinks links)
  ∧ end_time (createSyntheticResult now start metadata opts links) = now.
Proof. split; reflexivity. Qed.

(** ** LinkSelector *)

Lemma slice_to_nonnegative_end {A} (a : list A) (e : Z) :
  0 ≤ e →
  slice a 0 e = take (Z.to_nat (Z.min e (Z.of_nat (length a)))) a.
Proof.
  intros He. unfold slice, relative_index.
  destruct (Z.ltb_spec 0 0); [lia|].
  destruct (Z.ltb_spec e 0); [lia|].
  replace (Z.min 0 (Z.of_nat (length a))) with 0 by lia.
  change (Z.to_nat 0) with 0%nat. rewrite drop_0. f_equal. lia.
Qed.

Lemma slice_to_negative_end {A} (a : list A) (e : Z) :
  e < 0 →
  slice a 0 e = take (Z.to_nat (Z.of_nat (length a) + e)) a.
Proof.
  intros He. unfold slice, relative_index.
  destruct (Z.ltb_spec 0 0); [lia|].
  destruct (Z.ltb_spec e 0); [|lia].
  replace (Z.min 0 (Z.of_nat (length a))) with 0 by lia.
  change (Z.to_nat 0) with 0%nat. rewrite drop_0. f_equal. lia.
Qed.

Lemma slice_beyond_length {A} (a : list A) (e : Z) :
  Z.of_nat (length a) ≤ e → slice a 0 e = a.
Proof.
  intros He. rewrite slice_to_nonnegative_end by lia.
  apply take_ge. lia.
Qed.

Section SelectionFacts.

Variable precision : positive.
Variable array_sort : ∀ A : Type, list Q → list A → list A.

Abbreviation select := (shuffleAndTruncate precision array_sort).
Abbreviation select_st := (shuffleAndTruncate_st precision array_sort).

(** The part of C2 that the code has: a limit above the length of the
    input gives the whole sequence, in the order of the input or, for
    [RANDOM], in the order the engine's sort leaves it in. *)
Lemma shuffleAndTruncate_limit_above_length (draws : list Z)
    (links : list LinkIntermediate) (link_limit : Z) (order : LinkOrder) :
  (∀ A results (l : list A), array_sort A results l ≡ₚ l) →
  Z.of_nat (length links) < link_limit →
  select draws links link_limit order ≡ₚ links
  ∧ (order ≠ RANDOM → select draws links link_limit order = links).
Proof.
  intros Hperm Hlimit. unfold shuffleAndTruncate. split.
  - rewrite slice_beyond_length.
    + destruct order; [done | done | apply Hperm].
    + destruct order; [lia | lia |].
      rewrite (Permutation_length (Hperm _ _ _)). lia.
  - intros Horder. destruct order; [| |done];
      apply slice_beyond_length; lia.
Qed.

(** What a limit of at most 0 gives, in input order: [limit - 1] is
    negative, and [slice] counts a negative end from the end of the
    array. *)
Lemma shuffleAndTruncate_sequential_nonpositive_limit (draws : list Z)
    (links : list LinkIntermediate) (link_limit : Z) :
  link_limit ≤ 0 →
  select draws links link_limit SEQUENTIAL
  = take (Z.to_nat (Z.of_nat (length links) + link_limit - 1)) links.
Proof.
  intros Hlimit. unfold shuffleAndTruncate.
  rewrite slice_to_negative_end by lia. f_equal. lia.
Qed.

(** C2 — at the limits 0 and -1 the function does not return an empty
    sequence: of three links it keeps the first two, respectively the
    first one. *)
Theorem shuffleAndTruncate_limit_zero_keeps_links :
  ∀ (draws : list Z) (a b c : LinkIntermediate),
    select draws [a; b; c] 0 SEQUENTIAL = [a; b]
    ∧ select draws [a; b; c] (-1) SEQUENTIAL = [a]
    ∧ select draws [a; b; c] 0 SEQUENTIAL ≠ [].
Proof. intros draws a b c. repeat split. discriminate. Qed.

(** C3 — with [SEQUENTIAL] and a limit of at least 1 the result is the
    prefix of the input of length [min (limit - 1) (length input)], the
    elements in their original order. *)
Theorem shuffleAndTruncate_sequential_prefix (draws : list Z)
    (links : list LinkIntermediate) (link_limit : Z) :
  1 ≤ link_limit →
  select draws links link_limit SEQUENTIAL
  = take (Z.to_nat (Z.min (link_limit - 1) (Z.of_nat (length links)))) links
  ∧ Z.of_nat (length (select draws links link_limit SEQUENTIAL))
    = Z.min (link_limit - 1) (Z.of_nat (length links))
  ∧ select draws links link_limit SEQUENTIAL `prefix_of` links.
Proof.
  intros Hlimit. unfold shuffleAndTruncate.
  rewrite slice_to_nonnegative_end by lia.
  split; [done|]. split.
  - rewrite length_take. lia.
  - apply prefix_take.
Qed.

(** The store-level function computes the value of [shuffleAndTruncate] in
    a new array and leaves every array of the initial store as it was. *)
Lemma shuffleAndTruncate_st_run (draws : list Z)
    (σ : gmap ref (list LinkIntermediate)) (links : ref)
    (contents : list LinkIntermediate) (link_limit : Z) (order : LinkOrder) :
  σ !! links = Some contents →
  ∃ (result : ref) (σ' : gmap ref (list LinkIntermediate)),
    select_st draws links link_limit order σ = Some (result, σ')
    ∧ (result ∉ dom σ)
    ∧ σ' !! result = Some (select draws contents link_limit order)
    ∧ ∀ a : ref, a ∈ dom σ → σ' !! a = σ !! a.
Proof.
  intros Hlinks.
  set (copy := fresh (dom σ)).
  assert (Hcopy : copy ∉ dom σ) by apply is_fresh.
  assert (Hσcopy : σ !! copy = None) by by apply not_elem_of_dom.
  unfold shuffleAndTruncate_st, shuffleAndTruncate, spread_st, sort_st,
    slice_st, st_bind, st_ret, array_get, array_set, array_new.
  destruct order; rewrite Hlinks; cbn [fmap option_fmap option_map];
    fold copy; rewrite ?lookup_insert_eq; cbn [fmap option_fmap option_map];
    rewrite ?lookup_insert_eq.
  1, 2:
    set (σ1 := <[copy := contents]> σ);
    set (result := fresh (dom σ1));
    assert (Hresult : result ∉ dom σ1) by apply is_fresh;
    exists result, (<[result := slice contents 0 (link_limit - 1)]> σ1);
    (split; [done|]);
    (split; [subst σ1; set_solver|]);
    (split; [by rewrite lookup_insert_eq|]);
    intros a Ha;
    rewrite lookup_insert_ne by (subst σ1; set_solver);
    subst σ1; rewrite lookup_insert_ne by set_solver; done.
  set (sorted := array_sort _ (compareFn precision <$> draws) contents).
  set (σ1 := <[copy := sorted]> (<[copy := contents]> σ)).
  set (result := fresh (dom σ1)).
  assert (Hresult : result ∉ dom σ1) by apply is_fresh.
  exists result, (<[result := slice sorted 0 (link_limit - 1)]> σ1).
  split; [done|].
  split; [subst σ1; set_solver|].
  split; [by rewrite lookup_insert_eq|].
  intros a Ha.
  rewrite lookup_insert_ne by (subst σ1; set_solver).
  subst σ1. rewrite !lookup_insert_ne by set_solver. done.
Qed.

(** C9 — for every limit and every ordering, the array passed as [links]
    holds after the call the elements it held before, in the same order;
    the result is a different array. *)
Theorem shuffleAndTruncate_leaves_input_unchanged (draws : list Z)
    (σ : gmap ref (list LinkIntermediate)) (links : ref)
    (contents : list LinkIntermediate) (link_limit : Z) (order : LinkOrder) :
  σ !! links = Some contents →
  ∃ (result : ref) (σ' : gmap ref (list LinkIntermediate)),
    select_st draws links link_limit order σ = Some (result, σ')
    ∧ σ' !! links = Some contents
    ∧ result ≠ links.
Proof.
  intros Hlinks.
  destruct (shuffleAndTruncate_st_run draws σ links contents link_limit
              order Hlinks) as (result & σ' & Hrun & Hfresh & _ & Hframe).
  assert (Hdom : links ∈ dom σ) by (apply elem_of_dom; eauto).
  exists result, σ'. split; [done|]. split.
  - by rewrite Hframe.
  - intros ->. done.
Qed.

End SelectionFacts.

(** *** The random ordering on V8 is not uniform *)

Lemma negative_draw_spec (precision : positive) (u : Z) :
  negative_draw precision u = bool_decide (u < 2 ^ (Z.pos precision - 1)).
Proof.
  unfold negative_draw, is_negative, compareFn, Math_random, Qle_bool.
  cbn [Qminus Qplus Qopp Qnum Qden].
  assert (Hpow : Z.pos (2 ^ precision) = 2 * 2 ^ (Z.pos precision - 1)).
  { rewrite Pos2Z.inj_pow. rewrite <- Z.pow_succ_r by lia. f_equal. lia. }
  rewrite Hpow.
  destruct (Z.leb_spec (0 * Z.pos (Qden (u # 2 ^ precision) * 2))
              ((u * 2 + -1 * (2 * 2 ^ (Z.pos precision - 1))) * 1));
    case_bool_decide; cbn [negb]; first [done | lia].
Qed.

Lemma length_filter_all {A} (P : A → Prop) `{∀ x, Decision (P x)} (l : list A) :
  Forall P l → length (filter P l) = length l.
Proof.
  induction 1 as [|x l Hx Hl IH]; [done|].
  rewrite filter_cons, decide_True by done. cbn [length]. by rewrite IH.
Qed.

Lemma length_filter_none {A} (P : A → Prop) `{∀ x, Decision (P x)} (l : list A) :
  Forall (λ x, ¬ P x) l → length (filter P l) = 0%nat.
Proof.
  induction 1 as [|x l Hx Hl IH]; [done|].
  by rewrite filter_cons, decide_False.
Qed.

Lemma length_filter_fmap {A B} (f : A → B) (P : B → Prop)
    `{∀ y, Decision (P y)} (l : list A) :
  length (filter P (f <$> l)) = length (filter (λ x, P (f x)) l).
Proof.
  induction l as [|x l IH]; [done|].
  rewrite fmap_cons, !filter_cons.
  destruct (decide (P (f x))); cbn [length]; by rewrite IH.
Qed.

Lemma negative_draws_half (precision : positive) :
  length (filter (λ u, negative_draw precision u = true)
            (Math_random_draws precision)) = half_of_draws precision
  ∧ length (filter (λ u, negative_draw precision u = false)
              (Math_random_draws precision)) = half_of_draws precision.
Proof.
  unfold Math_random_draws, half_of_draws.
  set (h := 2 ^ (Z.pos precision - 1)).
  assert (Hh : 0 < h) by (apply Z.pow_pos_nonneg; lia).
  assert (Hpow : Z.pos (2 ^ precision) = h + h).
  { subst h. rewrite Pos2Z.inj_pow.
    replace (Z.pos precision) with (Z.succ (Z.pos precision - 1)) at 1 by lia.
    rewrite Z.pow_succ_r by lia. lia. }
  rewrite Hpow, seqZ_app by lia. rewrite !filter_app, !length_app.
  split.
  - rewrite length_filter_all, length_filter_none, length_seqZ; [lia| |].
    + apply Forall_seqZ. intros u Hu. rewrite negative_draw_spec.
      fold h. rewrite bool_decide_eq_false_2; [done | lia].
    + apply Forall_seqZ. intros u Hu. rewrite negative_draw_spec.
      fold h. apply bool_decide_eq_true_2. lia.
  - rewrite length_filter_none, length_filter_all, length_seqZ; [lia| |].
    + apply Forall_seqZ. intros u Hu. rewrite negative_draw_spec.
      fold h. apply bool_decide_eq_false_2. lia.
    + apply Forall_seqZ. intros u Hu. rewrite negative_draw_spec.
      fold h. rewrite bool_decide_eq_true_2; [done | lia].
Qed.

(** Counting outcomes through their sign patterns: a property of the
    answers to [order < 0] holds on as many outcomes of [k] draws as it has
    sign patterns, times [half_of_draws ^ k]. *)
Lemma count_outcomes_by_signs (precision : positive) (k : nat) :
  ∀ (G : list bool → Prop) `{∀ flags, Decision (G flags)},
    length (filter (λ ds, G (negative_draw precision <$> ds))
              (outcomes precision k))
    = (half_of_draws precision ^ k
       * length (filter G (sign_patterns k)))%nat.
Proof.
  induction k as [|k IH]; intros G HG.
  - cbn [outcomes sign_patterns Nat.pow]. rewrite !filter_cons, !filter_nil.
    cbn [fmap list_fmap]. destruct (decide (G [])); cbn [length]; lia.
  - cbn [outcomes sign_patterns].
    pose proof (IH (λ flags, G (true :: flags)) _) as IHt.
    pose proof (IH (λ flags, G (false :: flags)) _) as IHf.
    cbn beta in IHt, IHf.
    assert (Hsum : ∀ us : list Z,
      length (filter (λ ds, G (negative_draw precision <$> ds))
                (us ≫= λ u, (λ ds, u :: ds) <$> outcomes precision k))
      = (length (filter (λ u, negative_draw precision u = true) us)
         * (half_of_draws precision ^ k
            * length (filter (λ flags, G (true :: flags)) (sign_patterns k)))
         + length (filter (λ u, negative_draw precision u = false) us)
           * (half_of_draws precision ^ k
              * length (filter (λ flags, G (false :: flags))
                          (sign_patterns k))))%nat).
    { induction us as [|u us IHus]; [done|].
      rewrite bind_cons, filter_app, length_app, IHus, length_filter_fmap.
      rewrite !(filter_cons _ u).
      cbn [fmap list_fmap].
      destruct (negative_draw precision u) eqn:Hu.
      - rewrite decide_True, decide_False by done.
        change (list_fmap Z bool (negative_draw precision))
          with (fmap (M := list) (negative_draw precision)).
        rewrite IHt. cbn [length]. lia.
      - rewrite decide_False, decide_True by done.
        change (list_fmap Z bool (negative_draw precision))
          with (fmap (M := list) (negative_draw precision)).
        rewrite IHf. cbn [length]. lia. }
    rewrite Hsum.
    destruct (negative_draws_half precision) as [-> ->].
    change ([true; false] ≫= λ flag, (λ flags, flag :: flags) <$> sign_patterns k)
      with (((λ flags, true :: flags) <$> sign_patterns k)
            ++ ((λ flags, false :: flags) <$> sign_patterns k) ++ []).
    rewrite app_nil_r, filter_app, length_app, !length_filter_fmap.
    cbn [Nat.pow]. lia.
Qed.

Lemma length_outcomes_by_signs (precision : positive) (k : nat) :
  length (outcomes precision k)
  = (half_of_draws precision ^ k * length (sign_patterns k))%nat.
Proof.
  pose proof (count_outcomes_by_signs precision k (λ _, True)) as Hcount.
  rewrite !length_filter_all in Hcount
    by (apply Forall_forall; intros; exact I).
  exact Hcount.
Qed.

(** On three elements V8's sort calls the comparator at most four times:
    what a fifth and later calls would answer does not matter. *)
Lemma v8_sort_three_elements_four_calls {A} (flags extra : list bool)
    (a b c : A) :
  length flags = 4%nat →
  ArrayTimSortImpl (flags ++ extra) [a; b; c] = ArrayTimSortImpl flags [a; b; c].
Proof.
  destruct flags as [|[] [|[] [|[] [|[] [|]]]]]; try discriminate;
    intros _; reflexivity.
Qed.

Lemma favourable_v8_by_signs (precision : positive)
    (links : list LinkIntermediate) (link_limit : Z) (i : nat)
    (x : LinkIntermediate) (k : nat) :
  length (favourable precision v8_sort k links link_limit i x)
  = (half_of_draws precision ^ k
     * length (filter
                 (λ flags, slice (ArrayTimSortImpl flags links) 0
                             (link_limit - 1) !! i = Some x)
                 (sign_patterns k)))%nat.
Proof.
  rewrite <- (count_outcomes_by_signs precision k
    (λ flags, slice (ArrayTimSortImpl flags links) 0 (link_limit - 1) !! i
              = Some x)).
  unfold favourable. f_equal. apply list_filter_iff. intros ds.
  unfold shuffleAndTruncate, v8_sort, negative_draw.
  by rewrite <- list_fmap_compose.
Qed.

(** Which of three elements comes out first: the sort does not look at
    the elements, so it can be run on their positions 0, 1, 2. *)
Lemma v8_sort_three_first {A} (flags : list bool) (a b c : A) :
  slice (ArrayTimSortImpl flags [a; b; c]) 0 (4 - 1) !! 0%nat
  = first_of_three flags ≫= λ i, [a; b; c] !! i.
Proof.
  unfold first_of_three.
  destruct flags as [|[] [|[] [|[] [|[] rest]]]]; reflexivity.
Qed.

Lemma count_first_of_three (a b c x : LinkIntermediate) (i : nat) :
  a ≠ b → a ≠ c → b ≠ c →
  [a; b; c] !! i = Some x →
  length (filter
            (λ flags, slice (ArrayTimSortImpl flags [a; b; c]) 0 (4 - 1)
                        !! 0%nat = Some x) (sign_patterns 4))
  = length (filter (λ flags, first_of_three flags = Some i) (sign_patterns 4)).
Proof.
  intros Hab Hac Hbc Hx. f_equal. apply list_filter_iff. intros flags.
  rewrite v8_sort_three_first.
  destruct (first_of_three flags) as [[|[|[|j]]]|];
    destruct i as [|[|[|i]]]; simpl in *; split; intros; simplify_eq; done.
Qed.

(** C1 — on Node.js the order [RANDOM] gives is far from a uniform shuffle.
    For three different links and the limit 4 (nothing is cut off), with
    V8's sort and a [Math.random] of any number of bits, among the equally
    likely outcomes of the comparator's four calls the first link of the
    input comes out first in 7 of 16, the second in 3 of 16 and the third
    in 6 of 16, where a uniform shuffle has each of them first in a third
    of the outcomes. *)
Theorem shuffleAndTruncate_random_biased_on_v8 (precision : positive)
    (a b c : LinkIntermediate) :
  a ≠ b → a ≠ c → b ≠ c →
  (16 * length (favourable precision v8_sort 4 [a; b; c] 4 0 a)
   = 7 * length (outcomes precision 4))%nat
  ∧ (16 * length (favourable precision v8_sort 4 [a; b; c] 4 0 b)
     = 3 * length (outcomes precision 4))%nat
  ∧ (16 * length (favourable precision v8_sort 4 [a; b; c] 4 0 c)
     = 6 * length (outcomes precision 4))%nat.
Proof.
  intros Hab Hac Hbc.
  rewrite !favourable_v8_by_signs, length_outcomes_by_signs.
  rewrite (count_first_of_three a b c a 0), (count_first_of_three a b c b 1),
    (count_first_of_three a b c c 2) by done.
  assert (Hall : length (sign_patterns 4) = 16%nat) by reflexivity.
  assert (H0 : length (filter (λ flags, first_of_three flags = Some 0%nat)
                         (sign_patterns 4)) = 7%nat) by reflexivity.
  assert (H1 : length (filter (λ flags, first_of_three flags = Some 1%nat)
                         (sign_patterns 4)) = 3%nat) by reflexivity.
  assert (H2 : length (filter (λ flags, first_of_three flags = Some 2%nat)
                         (sign_patterns 4)) = 6%nat) by reflexivity.
  rewrite Hall, H0, H1, H2. lia.
Qed.

Lemma shuffleAndTruncate_random_biased_on_v8_witness :
  link_a ≠ link_b ∧ link_a ≠ link_c ∧ link_b ≠ link_c
  ∧ (16 * length (favourable 2 v8_sort 4 [link_a; link_b; link_c] 4 0 link_a)
     = 7 * length (outcomes 2 4))%nat
  ∧ (16 * length (favourable 2 v8_sort 4 [link_a; link_b; link_c] 4 0 link_b)
     = 3 * length (outcomes 2 4))%nat
  ∧ (16 * length (favourable 2 v8_sort 4 [link_a; link_b; link_c] 4 0 link_c)
     = 6 * length (outcomes 2 4))%nat.
Proof.
  assert (Hab : link_a ≠ link_b) by discriminate.
  assert (Hac : link_a ≠ link_c) by discriminate.
  assert (Hbc : link_b ≠ link_c) by discriminate.
  split; [exact Hab|]. split; [exact Hac|]. split; [exact Hbc|].
  apply (shuffleAndTruncate_random_biased_on_v8 2 link_a link_b link_c
           Hab Hac Hbc).
Defined.

(** ** The definitions at work, with insertion sort as the engine *)

Lemma insert_left_permutation {A} (x : A) (prefix : list A) :
  ∀ results : list Q, (insert_left results x prefix).1 ≡ₚ x :: prefix.
Proof.
  induction prefix as [|y prefix IH]; intros results; [reflexivity|].
  cbn [insert_left]. destruct results as [|r results]; [reflexivity|].
  destruct (Qle_bool r 0); [reflexivity|].
  specialize (IH results).
  destruct (insert_left results x prefix) as [p rest]. cbn [fst] in *.
  rewrite IH. apply perm_swap.
Qed.

Lemma insertion_loop_permutation {A} (todo : list A) :
  ∀ (results : list Q) (prefix : list A),
    insertion_loop results prefix todo ≡ₚ prefix ++ todo.
Proof.
  induction todo as [|x todo IH]; intros results prefix; cbn [insertion_loop].
  - by rewrite reverse_Permutation, app_nil_r.
  - pose proof (insert_left_permutation x prefix results) as Hins.
    destruct (insert_left results x prefix) as [p rest]. cbn [fst] in Hins.
    rewrite IH, Hins. apply Permutation_middle.
Qed.

Lemma insertion_sort_permutation (A : Type) (results : list Q) (l : list A) :
  insertion_sort A results l ≡ₚ l.
Proof. apply insertion_loop_permutation. Qed.

Lemma shuffleAndTruncate_limit_above_length_insertion_sort :
  shuffleAndTruncate 2 insertion_sort [3; 0; 3] [link_a; link_b; link_c]
    4 RANDOM
  ≡ₚ [link_a; link_b; link_c].
Proof.
  apply (shuffleAndTruncate_limit_above_length 2 insertion_sort);
    [apply insertion_sort_permutation | cbn; lia].
Qed.

(** [sort] does change the array it is called on: sorting the caller's
    array directly, without the copy, would reorder it. *)
Lemma sort_st_mutates_its_array :
  ∃ σ' : gmap ref (list LinkIntermediate),
    sort_st 2 insertion_sort [3; 0; 3] 1%positive
      {[ 1%positive := [link_a; link_b; link_c] ]}
    = Some (1%positive, σ')
    ∧ σ' !! 1%positive = Some [link_b; link_a; link_c].
Proof. eexists. split; reflexivity. Qed.

Lemma shuffleAndTruncate_sequential_prefix_witness :
  1 ≤ 3
  ∧ shuffleAndTruncate 2 insertion_sort [] [link_a; link_b; link_c]
      3 SEQUENTIAL
    = take (Z.to_nat (Z.min (3 - 1) (Z.of_nat (length [link_a; link_b; link_c]))))
        [link_a; link_b; link_c]
  ∧ Z.of_nat (length (shuffleAndTruncate 2 insertion_sort []
                        [link_a; link_b; link_c] 3 SEQUENTIAL))
    = Z.min (3 - 1) (Z.of_nat (length [link_a; link_b; link_c]))
  ∧ shuffleAndTruncate 2 insertion_sort [] [link_a; link_b; link_c]
      3 SEQUENTIAL
    `prefix_of` [link_a; link_b; link_c].
Proof.
  split; [lia|].
  apply (shuffleAndTruncate_sequential_prefix 2 insertion_sort []
           [link_a; link_b; link_c] 3).
  lia.
Defined.

Lemma shuffleAndTruncate_leaves_input_unchanged_witness :
  ({[ 1%positive := [link_a; link_b; link_c] ]}
     : gmap ref (list LinkIntermediate)) !! 1%positive
  = Some [link_a; link_b; link_c]
  ∧ ∃ (result : ref) (σ' : gmap ref (list LinkIntermediate)),
      shuffleAndTruncate_st 2 insertion_sort [3; 0; 3] 1%positive 4 RANDOM
        {[ 1%positive := [link_a; link_b; link_c] ]}
      = Some (result, σ')
      ∧ σ' !! 1%positive = Some [link_a; link_b; link_c]
      ∧ result ≠ 1%positive.
Proof.
  split; [reflexivity|].
  apply (shuffleAndTruncate_leaves_input_unchanged 2 insertion_sort
           [3; 0; 3] {[ 1%positive := [link_a; link_b; link_c] ]} 1%positive
           [link_a; link_b; link_c] 4 RANDOM).
  reflexivity.
Defined.

(** * Further properties of the code *)

Import Resources.

(** ** StatusEvaluator *)

Lemma checkStatusPassing_class_range
    (cls : ResponseStatusCode_StatusClass) (actual : Z) :
  checkStatusPassing (expect_class cls) actual = true
  ↔ ∃ c : Z, class_number cls = Some c ∧ 100 * c ≤ actual ≤ 100 * c + 99.
Proof.
  destruct cls; cbn;
    rewrite ?andb_true_iff, ?Z.geb_le, ?Z.leb_le; split;
    try (intros [Hlo Hhi]; eexists; split; [reflexivity | lia]);
    try (intros (c & [= <-] & Hc); lia);
    try done.
Qed.

(** X1 — with a class expectation, a status code in 100..599 passes for
    exactly one of the five classes and a code outside that range for
    none. *)
Theorem checkStatusPassing_classes_partition :
  ∀ actual : Z,
    length (filter (λ cls, checkStatusPassing (expect_class cls) actual = true)
              recognised_classes)
    = if bool_decide (100 ≤ actual ≤ 599) then 1%nat else 0%nat.
Proof.
  intros actual. unfold recognised_classes, expect_class.
  cbn [checkStatusPassing mbind option_bind status_value status_class].
  rewrite !Z.geb_leb.
  assert (Hcases : actual < 100 ∨ 100 ≤ actual ≤ 199 ∨ 200 ≤ actual ≤ 299
                   ∨ 300 ≤ actual ≤ 399 ∨ 400 ≤ actual ≤ 499
                   ∨ 500 ≤ actual ≤ 599 ∨ 599 < actual) by lia.
  destruct Hcases as [H|[H|[H|[H|[H|[H|H]]]]]];
    repeat match goal with
           | |- context [?a <=? ?b] =>
               first [ rewrite (proj2 (Z.leb_le a b)) by lia
                     | rewrite (proj2 (Z.leb_gt a b)) by lia ]
           end;
    first [ rewrite bool_decide_eq_true_2 by lia
          | rewrite bool_decide_eq_false_2 by lia ];
    reflexivity.
Qed.

Lemma bucket_of_quotient (c : Z) :
  bucket_of (Some c) =
    if bool_decide (200 ≤ c ≤ 299) then Bucket2xx
    else if bool_decide (300 ≤ c ≤ 399) then Bucket3xx
    else if bool_decide (400 ≤ c ≤ 499) then Bucket4xx
    else if bool_decide (500 ≤ c ≤ 599) then Bucket5xx
    else BucketUnreachable.
Proof.
  cbn [bucket_of].
  pose proof (Z.div_mod c 100 ltac:(lia)) as Hdm.
  pose proof (Z.mod_pos_bound c 100 ltac:(lia)) as Hm.
  repeat case_bool_decide;
    destruct (Z.eqb_spec (c / 100) 2); try lia;
    destruct (Z.eqb_spec (c / 100) 3); try lia;
    destruct (Z.eqb_spec (c / 100) 4); try lia;
    destruct (Z.eqb_spec (c / 100) 5); try lia; done.
Qed.

(** X2 — for the classes 2xx to 5xx the evaluator and the aggregator agree:
    a status code passes the class expectation exactly when the aggregator
    books it on the counter of that class. *)
Theorem checkStatusPassing_agrees_with_buckets :
  ∀ actual : Z,
    checkStatusPassing (expect_class STATUS_CLASS_2XX) actual
    = bool_decide (bucket_of (Some actual) = Bucket2xx)
    ∧ checkStatusPassing (expect_class STATUS_CLASS_3XX) actual
      = bool_decide (bucket_of (Some actual) = Bucket3xx)
    ∧ checkStatusPassing (expect_class STATUS_CLASS_4XX) actual
      = bool_decide (bucket_of (Some actual) = Bucket4xx)
    ∧ checkStatusPassing (expect_class STATUS_CLASS_5XX) actual
      = bool_decide (bucket_of (Some actual) = Bucket5xx).
Proof.
  intros actual. rewrite bucket_of_quotient. cbn.
  rewrite !Z.geb_leb.
  repeat case_bool_decide; repeat split;
    repeat match goal with
           | |- context [?a <=? ?b] => destruct (Z.leb_spec a b)
           end; cbn; first [done | lia].
Qed.

(** X3 — a status code that passes the 1xx class expectation is booked by
    the aggregator as unreachable: there is no 1xx counter. *)
Theorem checkStatusPassing_1xx_is_unreachable (actual : Z) :
  checkStatusPassing (expect_class STATUS_CLASS_1XX) actual = true →
  bucket_of (Some actual) = BucketUnreachable.
Proof.
  intros Hpass. apply checkStatusPassing_class_range in Hpass.
  destruct Hpass as (c & [= <-] & Hc).
  rewrite bucket_of_quotient.
  repeat case_bool_decide; first [done | lia].
Qed.

Lemma checkStatusPassing_1xx_is_unreachable_witness :
  checkStatusPassing (expect_class STATUS_CLASS_1XX) 101 = true
  ∧ bucket_of (Some 101) = BucketUnreachable.
Proof.
  split; [reflexivity|].
  apply (checkStatusPassing_1xx_is_unreachable 101). reflexivity.
Defined.

(** ** Fragment-navigation test *)

Lemma shouldGoToBlankPage_true_intro (current_url target_url base frag : string) :
  target_url = base +:+ "#" +:+ frag →
  ¬ occurs_in "#" base →
  occurs_in base current_url →
  shouldGoToBlankPage current_url target_url = true.
Proof.
  intros -> Hno Hocc. unfold shouldGoToBlankPage.
  assert (Hhash : includes (base +:+ "#" +:+ frag) "#" = true).
  { apply includes_spec. by exists base, frag. }
  rewrite Hhash. cbn [andb].
  destruct (indexOf_hash _ Hhash) as [Hidx _].
  rewrite Hidx, base_url_unique, substring_prefix by done.
  by apply includes_spec.
Qed.

Lemma shouldGoToBlankPage_true_elim (current_url target_url : string) :
  shouldGoToBlankPage current_url target_url = true →
  includes target_url "#" = true
  ∧ occurs_in (base_url target_url) current_url.
Proof.
  unfold shouldGoToBlankPage. rewrite andb_true_iff. intros [Hhash Hinc].
  split; [done|].
  destruct (indexOf_hash target_url Hhash) as [Hidx [frag Hfrag]].
  apply includes_spec.
  rewrite Hidx, Hfrag, base_url_unique, substring_prefix in Hinc;
    [done | apply base_url_no_hash].
Qed.

Lemma append_assoc (s t u : string) : (s +:+ t) +:+ u = s +:+ t +:+ u.
Proof. induction s; push_append; congruence. Qed.

Lemma append_nil_r (s : string) : s +:+ EmptyString = s.
Proof. induction s; push_append; congruence. Qed.

Lemma base_url_split (u : string) :
  ∃ rest : string, u = base_url u +:+ rest.
Proof.
  induction u as [|c u [rest IH]]; cbn [base_url].
  - by exists EmptyString.
  - destruct (Ascii.eqb hash c).
    + by exists (String c u).
    + exists rest. push_append. by rewrite <- IH.
Qed.

Lemma base_url_of_target (base frag : string) :
  base_url (base +:+ "#" +:+ frag) = base_url base.
Proof.
  induction base as [|c base IH]; push_append; cbn [base_url]; [done|].
  destruct (Ascii.eqb hash c); [done|]. by rewrite IH.
Qed.

(** X4 — the case the function is meant for: from any URL that starts with
    [base] to the target [base # fragment] the answer is [true], whatever
    follows [base] in the current URL and whatever the fragment is. *)
Theorem shouldGoToBlankPage_same_base :
  ∀ base rest fragment : string,
    shouldGoToBlankPage (base +:+ rest) (base +:+ "#" +:+ fragment) = true.
Proof.
  intros base rest fragment.
  destruct (base_url_split (base +:+ "#" +:+ fragment)) as [tail Htail].
  rewrite base_url_of_target in Htail.
  destruct (base_url_split base) as [tail' Hbase].
  assert (Hhash : includes (base +:+ "#" +:+ fragment) "#" = true).
  { apply includes_spec. by exists base, fragment. }
  destruct (indexOf_hash _ Hhash) as [_ [frag Hfrag]].
  rewrite base_url_of_target in Hfrag.
  apply (shouldGoToBlankPage_true_intro _ _ (base_url base) frag);
    [done | apply base_url_no_hash|].
  exists EmptyString, (tail' +:+ rest). push_append.
  by rewrite <- append_assoc, <- Hbase.
Qed.

(** X5 — a target without ['#'] never asks for the blank page, whatever the
    current URL is: that includes going from [base # fragment] back to
    [base]. *)
Theorem shouldGoToBlankPage_target_without_fragment
    (current_url target_url : string) :
  ¬ occurs_in "#" target_url →
  shouldGoToBlankPage current_url target_url = false.
Proof.
  intros Hno. unfold shouldGoToBlankPage.
  destruct (includes target_url "#") eqn:Hinc; [|done].
  apply includes_spec in Hinc. done.
Qed.

Lemma shouldGoToBlankPage_target_without_fragment_witness :
  ¬ occurs_in "#" "https://a/x"
  ∧ shouldGoToBlankPage "https://a/x#1" "https://a/x" = false.
Proof.
  assert (Hno : ¬ occurs_in "#" "https://a/x").
  { intros Hocc. apply includes_spec in Hocc. discriminate. }
  split; [exact Hno|].
  apply (shouldGoToBlankPage_target_without_fragment
           "https://a/x#1" "https://a/x" Hno).
Defined.

(** X6 — a target that is only a fragment (it starts with ['#']) asks for
    the blank page from every current URL: its base is the empty string,
    which every string includes. *)
Theorem shouldGoToBlankPage_fragment_only_target :
  ∀ current_url fragment : string,
    shouldGoToBlankPage current_url ("#" +:+ fragment) = true.
Proof.
  intros current_url fragment.
  apply (shouldGoToBlankPage_true_intro _ _ EmptyString fragment).
  - done.
  - intros ([|? ?] & post & H); push_append; discriminate.
  - by exists EmptyString, current_url.
Qed.

(** X7 — the test only asks whether the base occurs in the current URL, so
    an answer [true] stays [true] when text is put before or after the
    current URL (a longer path, a query string that quotes the target). *)
Theorem shouldGoToBlankPage_monotone (current_url target_url pre post : string) :
  shouldGoToBlankPage current_url target_url = true →
  shouldGoToBlankPage (pre +:+ current_url +:+ post) target_url = true.
Proof.
  intros Htrue.
  destruct (shouldGoToBlankPage_true_elim _ _ Htrue) as [Hhash Hocc].
  destruct (indexOf_hash _ Hhash) as [_ [frag Hfrag]].
  apply (shouldGoToBlankPage_true_intro _ _ (base_url target_url) frag);
    [done | apply base_url_no_hash|].
  destruct Hocc as (p & q & ->).
  exists (pre +:+ p), (q +:+ post).
  by rewrite !append_assoc.
Qed.

Lemma shouldGoToBlankPage_monotone_witness :
  shouldGoToBlankPage "https://a/x" "https://a/x#1" = true
  ∧ shouldGoToBlankPage ("https://b/?next=" +:+ "https://a/x" +:+ "&k=1")
      "https://a/x#1" = true.
Proof.
  split; [reflexivity|].
  apply (shouldGoToBlankPage_monotone "https://a/x" "https://a/x#1"
           "https://b/?next=" "&k=1").
  reflexivity.
Defined.

(** ** ResultAggregator *)

Lemma loop_body_status_total (r : BrokenLinksResultV1)
    (link : SyntheticLinkResult) :
  status_total (loop_body r link) = status_total r + 1.
Proof.
  unfold status_total. rewrite !loop_body_counter.
  destruct (bucket_of (status_code link)); repeat case_decide;
    first [done | lia].
Qed.

Lemma fold_loop_body_status_total (links : list SyntheticLinkResult) :
  ∀ r : BrokenLinksResultV1,
    status_total (fold_left loop_body links r)
    = status_total r + Z.of_nat (length links).
Proof.
  induction links as [|link links IH]; intros r; cbn [fold_left length].
  - lia.
  - rewrite IH, loop_body_status_total. lia.
Qed.

Lemma parseFollowedLinks_counts (links : list SyntheticLinkResult) :
  link_count (parseFollowedLinks links) = Some (Z.of_nat (length links))
  ∧ passing_link_count (parseFollowedLinks links)
    = Some (Z.of_nat (length (filter (λ l, link_passed l = Some true) links)))
  ∧ failing_link_count (parseFollowedLinks links)
    = Some (Z.of_nat (length (filter (λ l, link_passed l ≠ Some true) links))).
Proof.
  destruct (fold_loop_body_counts links initial_result 0 0 0
              eq_refl eq_refl eq_refl) as (Hn & Hp & Hf).
  unfold parseFollowedLinks. by rewrite Hn, Hp, Hf.
Qed.

Lemma parseFollowedLinks_counter (b : Bucket)
    (links : list SyntheticLinkResult) :
  counter b (parseFollowedLinks links)
  = Z.of_nat (length (filter (λ l, bucket_of (status_code l) = b) links)).
Proof.
  unfold parseFollowedLinks. rewrite fold_loop_body_counter. by destruct b.
Qed.

Lemma parseFollowedLinks_status_total_eq (links : list SyntheticLinkResult) :
  status_total (parseFollowedLinks links) = Z.of_nat (length links).
Proof.
  unfold parseFollowedLinks. rewrite fold_loop_body_status_total.
  change (status_total initial_result) with 0. lia.
Qed.

(** X8 — the five status counters of a report add up to its [link_count]:
    every link is booked on a status counter once. *)
Theorem parseFollowedLinks_status_counters_sum :
  ∀ links : list SyntheticLinkResult,
    link_count (parseFollowedLinks links)
    = Some (status_total (parseFollowedLinks links)).
Proof.
  intros links.
  destruct (parseFollowedLinks_counts links) as (-> & _ & _).
  by rewrite parseFollowedLinks_status_total_eq.
Qed.

Lemma length_filter_partition_origin (links : list SyntheticLinkResult) :
  (length (filter (λ l, is_origin l ≠ Some true) links)
   + length (filter (λ l, is_origin l = Some true) links))%nat
  = length links.
Proof.
  induction links as [|link links IH]; [done|].
  rewrite !filter_cons.
  destruct (decide (is_origin link = Some true)) as [Heq|Hne].
  - rewrite decide_False by (intros Hne; by apply Hne). cbn [length]. lia.
  - rewrite decide_True by done. cbn [length]. lia.
Qed.

(** X9 — [link_count] is the number of followed links in the report plus
    the number of input elements flagged as origin.  With one origin that
    is [1 + length followed_link_results]; with several, all but the last
    are counted although the report no longer holds them. *)
Theorem parseFollowedLinks_link_count_followed_and_origins :
  ∀ links : list SyntheticLinkResult,
    link_count (parseFollowedLinks links)
    = Some (Z.of_nat (length (followed_link_results (parseFollowedLinks links)))
            + Z.of_nat (length (filter (λ l, is_origin l = Some true) links))).
Proof.
  intros links.
  destruct (parseFollowedLinks_counts links) as (-> & _ & _).
  unfold parseFollowedLinks.
  destruct (fold_loop_body_routing links initial_result) as [-> _].
  cbn [initial_result followed_link_results app].
  pose proof (length_filter_partition_origin links). f_equal. lia.
Qed.

(** X10 — aggregating a concatenation: every counter of the report of
    [first ++ second] is the sum of the counters of the two reports, the
    followed links are those of the first report and then those of the
    second, and the origin is the second report's when [second] has an
    origin element and the first report's otherwise. *)
Theorem parseFollowedLinks_app :
  ∀ first second : list SyntheticLinkResult,
    let r1 := parseFollowedLinks first in
    let r2 := parseFollowedLinks second in
    let r := parseFollowedLinks (first ++ second) in
    link_count r = Some ((link_count r1 ?? 0) + (link_count r2 ?? 0))
    ∧ passing_link_count r
      = Some ((passing_link_count r1 ?? 0) + (passing_link_count r2 ?? 0))
    ∧ failing_link_count r
      = Some ((failing_link_count r1 ?? 0) + (failing_link_count r2 ?? 0))
    ∧ (∀ b : Bucket, counter b r = counter b r1 + counter b r2)
    ∧ followed_link_results r
      = followed_link_results r1 ++ followed_link_results r2
    ∧ origin_link_result r
      = (if decide (filter (λ l, is_origin l = Some true) second = [])
         then origin_link_result r1 else origin_link_result r2).
Proof.
  intros first second r1 r2 r. subst r1 r2 r.
  destruct (parseFollowedLinks_counts (first ++ second)) as (-> & -> & ->).
  destruct (parseFollowedLinks_counts first) as (-> & -> & ->).
  destruct (parseFollowedLinks_counts second) as (-> & -> & ->).
  cbn [nullish]. rewrite !filter_app, !length_app.
  repeat split; try (f_equal; lia).
  - intros b. rewrite !parseFollowedLinks_counter, filter_app, length_app. lia.
  - unfold parseFollowedLinks.
    destruct (fold_loop_body_routing (first ++ second) initial_result)
      as [-> _].
    destruct (fold_loop_body_routing first initial_result) as [-> _].
    destruct (fold_loop_body_routing second initial_result) as [-> _].
    cbn [initial_result followed_link_results app]. apply filter_app.
  - unfold parseFollowedLinks.
    destruct (fold_loop_body_routing (first ++ second) initial_result)
      as [_ ->].
    destruct (fold_loop_body_routing first initial_result) as [_ ->].
    destruct (fold_loop_body_routing second initial_result) as [_ ->].
    cbn [initial_result origin_link_result]. rewrite filter_app.
    destruct (filter (λ l, is_origin l = Some true) second)
      as [|x origins] eqn:Horigins.
    + rewrite app_nil_r. by rewrite decide_True.
    + rewrite decide_False by done.
      rewrite last_app.
      destruct (last (x :: origins)) eqn:Hlast; [done|].
      by apply last_None in Hlast.
Qed.

(** X11 — the counters do not depend on the order of the input: two inputs
    that are permutations of each other give the same [link_count], passing
    and failing counts and the same five status counters. *)
Theorem parseFollowedLinks_counters_permutation
    (links links' : list SyntheticLinkResult) :
  links ≡ₚ links' →
  link_count (parseFollowedLinks links)
  = link_count (parseFollowedLinks links')
  ∧ passing_link_count (parseFollowedLinks links)
    = passing_link_count (parseFollowedLinks links')
  ∧ failing_link_count (parseFollowedLinks links)
    = failing_link_count (parseFollowedLinks links')
  ∧ ∀ b : Bucket,
      counter b (parseFollowedLinks links)
      = counter b (parseFollowedLinks links').
Proof.
  intros Hperm.
  destruct (parseFollowedLinks_counts links) as (-> & -> & ->).
  destruct (parseFollowedLinks_counts links') as (-> & -> & ->).
  repeat split; try (by rewrite Hperm).
  intros b. rewrite !parseFollowedLinks_counter. by rewrite Hperm.
Qed.

(** X12 — the report inside the envelope built by [createSyntheticResult]
    carries the options that were passed in and keeps the counts of the
    aggregation: [link_count] is the number of results, it is the sum of
    the passing and failing counts and the sum of the five status
    counters. *)
Theorem createSyntheticResult_report_counts :
  ∀ (now start : string) (metadata : list (string * string))
    (opts : BrokenLinkCheckerOptions) (links : list SyntheticLinkResult),
    let report :=
      synthetic_broken_links_result_v1
        (createSyntheticResult now start metadata opts links) in
    options report = opts
    ∧ link_count report = Some (Z.of_nat (length links))
    ∧ (link_count report ?? 0)
      = (passing_link_count report ?? 0) + (failing_link_count report ?? 0)
    ∧ (link_count report ?? 0) = status_total report
    ∧ followed_link_results report
      = followed_link_results (parseFollowedLinks links)
    ∧ origin_link_result report
      = origin_link_result (parseFollowedLinks links).
Proof.
  intros now start metadata opts links report. subst report.
  cbn [createSyntheticResult synthetic_broken_links_result_v1 set_options
       options link_count passing_link_count failing_link_count
       followed_link_results origin_link_result].
  destruct (parseFollowedLinks_counts links) as (Hn & Hp & Hf).
  pose proof (parseFollowedLinks_status_total_eq links) as Htotal.
  rewrite Hn, Hp, Hf. cbn [nullish].
  pose proof (length_filter_partition_passed links).
  repeat split; try lia.
  change (status_total (set_options opts (parseFollowedLinks links)))
    with (status_total (parseFollowedLinks links)).
  lia.
Qed.

Lemma parseFollowedLinks_counters_permutation_witness :
  [ {| link_passed := Some true; status_code := Some 200;
       is_origin := Some true; target_uri := Some "https://a/" |};
    {| link_passed := Some false; status_code := Some 404;
       is_origin := Some false; target_uri := Some "https://a/x" |} ]
  ≡ₚ [ {| link_passed := Some false; status_code := Some 404;
          is_origin := Some false; target_uri := Some "https://a/x" |};
       {| link_passed := Some true; status_code := Some 200;
          is_origin := Some true; target_uri := Some "https://a/" |} ]
  ∧ link_count (parseFollowedLinks
      [ {| link_passed := Some true; status_code := Some 200;
           is_origin := Some true; target_uri := Some "https://a/" |};
        {| link_passed := Some false; status_code := Some 404;
           is_origin := Some false; target_uri := Some "https://a/x" |} ])
    = link_count (parseFollowedLinks
      [ {| link_passed := Some false; status_code := Some 404;
           is_origin := Some false; target_uri := Some "https://a/x" |};
        {| link_passed := Some true; status_code := Some 200;
           is_origin := Some true; target_uri := Some "https://a/" |} ]).
Proof.
  split; [apply perm_swap|].
  apply (parseFollowedLinks_counters_permutation _ _ (perm_swap _ _ _)).
Defined.

(** X13 — what the report holds comes from the input: the followed links
    are a subsequence of the input and none of them is flagged as origin;
    the origin is the placeholder [{}] when no input element is flagged as
    origin, and otherwise an input element that is. *)
Theorem parseFollowedLinks_report_from_input :
  ∀ links : list SyntheticLinkResult,
    followed_link_results (parseFollowedLinks links) `sublist_of` links
    ∧ Forall (λ l, is_origin l ≠ Some true)
        (followed_link_results (parseFollowedLinks links))
    ∧ ((filter (λ l, is_origin l = Some true) links = []
        ∧ origin_link_result (parseFollowedLinks links) = empty_link_result)
       ∨ (origin_link_result (parseFollowedLinks links) ∈ links
          ∧ is_origin (origin_link_result (parseFollowedLinks links))
            = Some true)).
Proof.
  intros links. unfold parseFollowedLinks.
  destruct (fold_loop_body_routing links initial_result) as [-> ->].
  cbn [initial_result followed_link_results origin_link_result app].
  split; [apply sublist_filter|].
  split.
  - apply Forall_forall. intros l Hl.
    by apply list_elem_of_filter in Hl as [Hl _].
  - destruct (last (filter (λ l, is_origin l = Some true) links))
      as [origin|] eqn:Hlast.
    + right. apply last_Some_elem_of, list_elem_of_filter in Hlast.
      cbn [default]. by destruct Hlast.
    + left. by apply last_None in Hlast.
Qed.

(** ** LinkSelector *)

Lemma slice_from_zero_is_take {A} (a : list A) (e : Z) :
  ∃ n : nat, slice a 0 e = take n a
             ∧ Z.of_nat n
               = (if e <? 0 then Z.max (Z.of_nat (length a) + e) 0 else e).
Proof.
  destruct (Z.ltb_spec e 0).
  - exists (Z.to_nat (Z.of_nat (length a) + e)).
    split; [by apply slice_to_negative_end | lia].
  - exists (Z.to_nat e). split; [|lia].
    rewrite slice_to_nonnegative_end by done.
    destruct (Z.le_gt_cases e (Z.of_nat (length a))).
    + f_equal. lia.
    + rewrite !take_ge by lia. done.
Qed.

Section SelectionMore.

Variable precision : positive.
Variable array_sort : ∀ A : Type, list Q → list A → list A.

Abbreviation pick := (shuffleAndTruncate precision array_sort).
Abbreviation pick_st := (shuffleAndTruncate_st precision array_sort).

Lemma shuffleAndTruncate_is_take (draws : list Z)
    (links : list LinkIntermediate) (link_limit : Z) (order : LinkOrder) :
  (∀ A results (l : list A), array_sort A results l ≡ₚ l) →
  ∃ (ordered : list LinkIntermediate) (n : nat),
    ordered ≡ₚ links
    ∧ pick draws links link_limit order = take n ordered
    ∧ Z.of_nat n
      = (if link_limit - 1 <? 0
         then Z.max (Z.of_nat (length links) + (link_limit - 1)) 0
         else link_limit - 1).
Proof.
  intros Hperm. unfold shuffleAndTruncate.
  set (ordered := match order with
                  | RANDOM => array_sort _ (compareFn precision <$> draws) links
                  | _ => links
                  end).
  assert (Hordered : ordered ≡ₚ links).
  { subst ordered. destruct order; [done | done | apply Hperm]. }
  destruct (slice_from_zero_is_take ordered (link_limit - 1)) as (n & Hn & Hz).
  exists ordered, n. rewrite (Permutation_length Hordered) in Hz. done.
Qed.

(** X14 — the number of links selected, for every limit and every ordering
    (the engine's sort rearranging the array it is given): for a limit of
    at least 1 it is [min (limit - 1) (length links)], so never more than
    [limit - 1]; for a limit of at most 0 it is [length links + limit - 1],
    or 0 when that is negative. *)
Theorem shuffleAndTruncate_length (draws : list Z)
    (links : list LinkIntermediate) (link_limit : Z) (order : LinkOrder) :
  (∀ A results (l : list A), array_sort A results l ≡ₚ l) →
  Z.of_nat (length (pick draws links link_limit order))
  = (if link_limit <=? 0
     then Z.max (Z.of_nat (length links) + link_limit - 1) 0
     else Z.min (link_limit - 1) (Z.of_nat (length links))).
Proof.
  intros Hperm.
  destruct (shuffleAndTruncate_is_take draws links link_limit order Hperm)
    as (ordered & n & Hordered & -> & Hn).
  rewrite length_take, (Permutation_length Hordered).
  destruct (Z.ltb_spec (link_limit - 1) 0), (Z.leb_spec link_limit 0); lia.
Qed.

(** X15 — the selection never invents or repeats a link: for every limit
    and ordering (the engine's sort rearranging the array it is given) the
    result, together with the links left out, is a rearrangement of the
    input. *)
Theorem shuffleAndTruncate_selects_from_input (draws : list Z)
    (links : list LinkIntermediate) (link_limit : Z) (order : LinkOrder) :
  (∀ A results (l : list A), array_sort A results l ≡ₚ l) →
  ∃ left_out : list LinkIntermediate,
    pick draws links link_limit order ++ left_out ≡ₚ links.
Proof.
  intros Hperm.
  destruct (shuffleAndTruncate_is_take draws links link_limit order Hperm)
    as (ordered & n & Hordered & -> & _).
  exists (drop n ordered). by rewrite take_drop.
Qed.

(** X16 — with the limit 1 no link is selected, whatever the input, the
    ordering and the engine: the cut is at [limit - 1 = 0]. *)
Theorem shuffleAndTruncate_limit_one_empty :
  ∀ (draws : list Z) (links : list LinkIntermediate) (order : LinkOrder),
    pick draws links 1 order = [].
Proof.
  intros draws links order. unfold shuffleAndTruncate.
  rewrite slice_to_nonnegative_end by lia.
  by replace (Z.to_nat (Z.min (1 - 1) _)) with 0%nat by lia.
Qed.

(** X17 — in input order a larger limit selects more of the same: for
    limits [1 <= l1 <= l2] the selection with [l1] is a prefix of the
    selection with [l2]. *)
Theorem shuffleAndTruncate_sequential_monotone (draws draws' : list Z)
    (links : list LinkIntermediate) (limit1 limit2 : Z) :
  1 ≤ limit1 → limit1 ≤ limit2 →
  pick draws links limit1 SEQUENTIAL
  `prefix_of` pick draws' links limit2 SEQUENTIAL.
Proof.
  intros H1 H12. unfold shuffleAndTruncate.
  rewrite !slice_to_nonnegative_end by lia.
  set (n1 := Z.to_nat (Z.min (limit1 - 1) (Z.of_nat (length links)))).
  set (n2 := Z.to_nat (Z.min (limit2 - 1) (Z.of_nat (length links)))).
  replace n1 with (n1 `min` n2)%nat by (subst n1 n2; lia).
  rewrite <- take_take. apply prefix_take.
Qed.

(** X18 — on the store of arrays the function returns a new array, one that
    was not in the store before, holding the value of [shuffleAndTruncate]
    for the contents of [links]; every array that was in the store,
    [links] among them, is left as it was. *)
Theorem shuffleAndTruncate_st_returns_new_array (draws : list Z)
    (σ : gmap ref (list LinkIntermediate)) (links : ref)
    (contents : list LinkIntermediate) (link_limit : Z) (order : LinkOrder) :
  σ !! links = Some contents →
  ∃ (result : ref) (σ' : gmap ref (list LinkIntermediate)),
    pick_st draws links link_limit order σ = Some (result, σ')
    ∧ σ !! result = None
    ∧ σ' !! result = Some (pick draws contents link_limit order)
    ∧ ∀ (a : ref) (l : list LinkIntermediate),
        σ !! a = Some l → σ' !! a = Some l.
Proof.
  intros Hlinks.
  destruct (shuffleAndTruncate_st_run precision array_sort draws σ links
              contents link_limit order Hlinks)
    as (result & σ' & Hrun & Hfresh & Hresult & Hframe).
  exists result, σ'. split; [done|].
  split; [by apply not_elem_of_dom|]. split; [done|].
  intros a l Ha. rewrite Hframe; [done|]. apply elem_of_dom. eauto.
Qed.

End SelectionMore.

Lemma shuffleAndTruncate_length_witness :
  (∀ A results (l : list A), insertion_sort A results l ≡ₚ l)
  ∧ Z.of_nat (length (shuffleAndTruncate 2 insertion_sort [3; 0; 3]
                        [link_a; link_b; link_c] 3 RANDOM))
    = (if 3 <=? 0
       then Z.max (Z.of_nat (length [link_a; link_b; link_c]) + 3 - 1) 0
       else Z.min (3 - 1) (Z.of_nat (length [link_a; link_b; link_c]))).
Proof.
  split; [exact insertion_sort_permutation|].
  apply (shuffleAndTruncate_length 2 insertion_sort [3; 0; 3]
           [link_a; link_b; link_c] 3 RANDOM insertion_sort_permutation).
Defined.

Lemma shuffleAndTruncate_selects_from_input_witness :
  (∀ A results (l : list A), insertion_sort A results l ≡ₚ l)
  ∧ ∃ left_out : list LinkIntermediate,
      shuffleAndTruncate 2 insertion_sort [3; 0; 3]
        [link_a; link_b; link_c] 3 RANDOM ++ left_out
      ≡ₚ [link_a; link_b; link_c].
Proof.
  split; [exact insertion_sort_permutation|].
  apply (shuffleAndTruncate_selects_from_input 2 insertion_sort [3; 0; 3]
           [link_a; link_b; link_c] 3 RANDOM insertion_sort_permutation).
Defined.

Lemma shuffleAndTruncate_sequential_monotone_witness :
  1 ≤ 2 ∧ 2 ≤ 3
  ∧ shuffleAndTruncate 2 insertion_sort [] [link_a; link_b; link_c]
      2 SEQUENTIAL
    `prefix_of` shuffleAndTruncate 2 insertion_sort []
                  [link_a; link_b; link_c] 3 SEQUENTIAL.
Proof.
  split; [lia|]. split; [lia|].
  apply (shuffleAndTruncate_sequential_monotone 2 insertion_sort [] []
           [link_a; link_b; link_c] 2 3); lia.
Defined.

Lemma shuffleAndTruncate_st_returns_new_array_witness :
  ({[ 1%positive := [link_a; link_b; link_c] ]}
     : gmap ref (list LinkIntermediate)) !! 1%positive
  = Some [link_a; link_b; link_c]
  ∧ ∃ (result : ref) (σ' : gmap ref (list LinkIntermediate)),
      shuffleAndTruncate_st 2 insertion_sort [3; 0; 3] 1%positive 3 RANDOM
        {[ 1%positive := [link_a; link_b; link_c] ]}
      = Some (result, σ')
      ∧ ({[ 1%positive := [link_a; link_b; link_c] ]}
           : gmap ref (list LinkIntermediate)) !! result = None
      ∧ σ' !! result
        = Some (shuffleAndTruncate 2 insertion_sort [3; 0; 3]
                  [link_a; link_b; link_c] 3 RANDOM)
      ∧ ∀ (a : ref) (l : list LinkIntermediate),
          ({[ 1%positive := [link_a; link_b; link_c] ]}
             : gmap ref (list LinkIntermediate)) !! a = Some l →
          σ' !! a = Some l.
Proof.
  split; [reflexivity|].
  apply (shuffleAndTruncate_st_returns_new_array 2 insertion_sort
           [3; 0; 3] {[ 1%positive := [link_a; link_b; link_c] ]} 1%positive
           [link_a; link_b; link_c] 3 RANDOM).
  reflexivity.
Defined.

(** ** Page and browser lifecycle *)


(** X20 — [closeBrowser] calls [close] once and never lets the error of
    [close] through: it returns normally when [close] succeeds, when it
    fails with a value that is not an [Error], and when it fails with an
    [Error] with a string message, which is then written to [stderr].  The
    one way it throws is when [close] fails with an [Error] whose message
    is not a string: then [stderr.write] throws its [TypeError] inside the
    handler, and nothing is written. *)
Theorem closeBrowser_outcome :
  ∀ browser : Browser,
    closeBrowser browser
    = match browser_close browser with
      | Threw (ThrownError (WritableMessage chunk)) =>
          ([EvBrowserClose; EvStderrWrite chunk], Returned tt)
      | Threw (ThrownError (UnwritableMessage complaint)) =>
          ([EvBrowserClose], Threw (ThrownError (WritableMessage complaint)))
      | _ => ([EvBrowserClose], Returned tt)
      end.
Proof.
  intros browser. unfold closeBrowser, call, try_catch.
  destruct (browser_close browser) as [[]|[[chunk|complaint]|]]; reflexivity.
Qed.

Lemma rejections_from_pool (pagePool : list Page) (e : Thrown) :
  e ∈ rejections (page_close <$> pagePool) →
  ∃ page : Page, page ∈ pagePool ∧ page_close page = Threw e.
Proof.
  unfold rejections. rewrite list_elem_of_omap.
  intros (o & Ho & He). apply list_elem_of_fmap in Ho as (page & -> & Hpage).
  exists page. split; [done|].
  destruct (page_close page) as [[]|e']; [done|]. by injection He as ->.
Qed.

(** X21 — [closePagePool] calls [close] on every page of the pool, in the
    order of the pool and also after a failure, whichever page fails
    first.  It then either returns normally, having written at most one
    message to [stderr], the string message of a pool page whose [close]
    failed with an [Error]; or it throws the [TypeError] of [stderr.write],
    with nothing written, which happens only when the [close] of a pool
    page failed with an [Error] whose message is not a string.  When every
    [close] succeeds it returns and writes nothing. *)
Theorem closePagePool_outcome :
  ∀ (earliest : nat) (pagePool : list Page),
    ∃ (log : list Event) (end_ : Outcome unit),
      closePagePool earliest pagePool
      = (((λ page, EvPageClose (page_id page)) <$> pagePool) ++ log, end_)
      ∧ ((end_ = Returned tt
          ∧ (log = []
             ∨ ∃ (page : Page) (chunk : string),
                 page ∈ pagePool
                 ∧ page_close page = Threw (ThrownError (WritableMessage chunk))
                 ∧ log = [EvStderrWrite chunk]))
         ∨ (∃ (page : Page) (complaint : string),
              page ∈ pagePool
              ∧ page_close page
                = Threw (ThrownError (UnwritableMessage complaint))
              ∧ end_ = Threw (ThrownError (WritableMessage complaint))
              ∧ log = []))
      ∧ (rejections (page_close <$> pagePool) = []
         → log = [] ∧ end_ = Returned tt).
Proof.
  intros earliest pagePool.
  unfold closePagePool, map_close, Promise_all, try_catch.
  cbv beta iota zeta.
  destruct (rejections (page_close <$> pagePool)) as [|e es] eqn:Hrej.
  - exists [], (Returned tt). rewrite app_nil_r. split; [reflexivity|].
    split; [left; split; [done | by left] | done].
  - assert (Hin : nth earliest (e :: es) e ∈ e :: es).
    { destruct (decide (earliest < length (e :: es))%nat).
      - by apply nth_elem_of.
      - rewrite nth_overflow by lia. apply list_elem_of_here. }
    destruct (rejections_from_pool pagePool (nth earliest (e :: es) e))
      as (page & Hpage & Hclose); [by rewrite Hrej|].
    set (winner := nth earliest (e :: es) e) in *. clearbody winner.
    destruct winner as [[chunk|complaint]|].
    + exists [EvStderrWrite chunk], (Returned tt). split; [reflexivity|].
      split; [|intros Hnil; discriminate Hnil].
      left. split; [done|]. right. by exists page, chunk.
    + exists [], (Threw (ThrownError (WritableMessage complaint))).
      split; [reflexivity|].
      split; [|intros Hnil; discriminate Hnil].
      right. by exists page, complaint.
    + exists [], (Returned tt). split; [reflexivity|].
      split; [|intros Hnil; discriminate Hnil].
      left. split; [done | by left].
Qed.

(** A pool of three pages, the second of which fails to close: all three
    are closed, and the one message is written. *)
Lemma closePagePool_with_a_stuck_page :
  closePagePool 0 [page_ok 1; page_stuck 2 "Target closed"; page_ok 3]
  = ([EvPageClose 1; EvPageClose 2; EvPageClose 3;
      EvStderrWrite "Target closed"],
     Returned tt).
Proof. reflexivity. Qed.

(** A pool with a page whose [close] fails with an [Error] whose message
    is not a string: every page is closed, and [closePagePool] throws. *)
Lemma closePagePool_with_a_broken_page :
  closePagePool 0 [page_ok 1; page_broken 2 "chunk must be a string"; page_ok 3]
  = ([EvPageClose 1; EvPageClose 2; EvPageClose 3],
     Threw (ThrownError (WritableMessage "chunk must be a string"))).
Proof. reflexivity. Qed.
